(** * yvm: the concurrent mark-and-sweep collector (src/gc/GC.cpp)

    A shallow embedding of [ConcurrentGC]: the marker, the sweeper, the
    worker-pool hand-off and the coordinator [gc], followed by the
    properties of the collector.

    Conventions of the embedding.
    - A [JType*] is an [option JType]: [None] is [nullptr], and the
      constructor of the value is what [typeid] sees through the pointer.
    - Offsets ([size_t]) are [N]; no arithmetic is done on them.
    - [std::map] containers keyed by offset are [gmap N _]; the mark sets
      ([objectBitmap], [arrayBitmap]) are [gset N].
    - The code mutates the runtime ([yrt]), the collector ([this]) and the
      worker pool; all of it is threaded through one state monad [M] with
      failure.
    - The closures handed to [gcThreadPool.submit] are defunctionalised
      into the type [Task]; a submitted task stays in the pool's queue
      until the coordinator waits on its future, and it runs, as one
      step, at that moment: a task that is never awaited is never seen to
      have run.  The order this fixes among the tasks of one phase does
      not matter ([mark_tasks_commute], [sweep_tasks_commute]).
    - Undefined behaviour of the C++ (a null or dangling pointer, a slot
      index out of range) and the exceptions and aborts it can raise are
      values of [Failure]; so is waiting for something that will not
      happen.
    - Recursion in [mark] is bounded by [fuel]; running out of it is the
      failure [OutOfFuel].
    - The worker threads ([GCThreadPool::runPendingWork], [finalize]) are
      modelled on their own in the last part, where a worker that takes
      the tasks from the front of the queue is compared with the tasks
      run at their futures.
    - Not modelled: the release of memory ([delete] of array storage in
      the array sweep), the spin locks around the mark-set insertions and
      the mutex held by [gc], which matter only between threads. *)

From stdpp Require Import gmap list.
From Stdlib Require Import ZArith.

Open Scope Z_scope.

(** ** Data model *)

(** The subclasses of [JType] that the collector can meet.  [JObject] and
    [JArray] carry their heap offset; every other subclass (the boxed
    primitives) is [JPrimitive]. *)
Inductive JType : Type :=
| JObject (offset : N)
| JArray (offset : N)
| JPrimitive.

Definition is_JObject (v : JType) : bool :=
  match v with JObject _ => true | _ => false end.

Definition is_JArray (v : JType) : bool :=
  match v with JArray _ => true | _ => false end.

Inductive ObjectMonitor : Type := MkObjectMonitor.

(** [yrt.jheap]: the [data] map of each of the three containers.  An array
    entry is the pair (length, element storage) that [getElements]
    returns. *)
Record JavaHeap : Type := mkJavaHeap {
  objectContainer : gmap N (list (option JType));
  arrayContainer : gmap N (N * list (option JType));
  monitorContainer : gmap N ObjectMonitor
}.

(** One node of the frame chain; the chain itself ([temp->next]) is a list,
    top frame first. *)
Record Frame : Type := mkFrame {
  maxStack : Z;
  stackSlots : list (option JType);
  maxLocal : Z;
  localSlots : list (option JType)
}.

Definition JavaFrame : Type := list Frame.

(** A loaded class: the entries of its [staticVars] map, in iteration
    order. *)
Record JavaClass : Type := mkJavaClass {
  staticVars : list (N * option JType)
}.

(** The policy enumeration: the one enumerator the code names, and any
    other value of the underlying type. *)
Inductive GCPolicy : Type :=
| GC_MARK_AND_SWEEP
| GC_POLICY_OTHER (underlying : Z).

(** The closures submitted to the pool, one constructor per lambda. *)
Inductive Task : Type :=
| StackMarkTask (temp : Frame)
| LocalMarkTask (temp : Frame)
| StaticFieldsTask
| ObjectSweepTask
| ArraySweepTask
| MonitorSweepTask.

Definition is_mark_task (t : Task) : bool :=
  match t with
  | StackMarkTask _ | LocalMarkTask _ | StaticFieldsTask => true
  | _ => false
  end.

(** What the coordinating thread does to its collaborators, in order. *)
Inductive Event : Type :=
| EvSignalWork
| EvSignalWait
| EvSubmit (fut : nat) (t : Task)
| EvGet (fut : nat)
| EvStopTheWorld.

(** [ConcurrentGC::GCThreadPool]: the wake flag, the queue of tasks not
    yet run (each with the number of its future) and the number of
    futures handed out so far. *)
Record GCThreadPool : Type := mkPool {
  work : bool;
  taskQueue : list (nat * Task);
  issued : nat
}.

Record ConcurrentGC : Type := mkGC {
  frames : option JavaFrame;
  overMemoryThreshold : bool;
  objectBitmap : gset N;
  arrayBitmap : gset N;
  safepointWaitCnt : Z;
  gcThreadPool : GCThreadPool
}.

(** The whole runtime as the collector sees it: [yrt.jheap],
    [yrt.ma->classTable], the collector, [YVM::executor.getThreadNum()],
    and the trace of collaborator calls. *)
Record Runtime : Type := mkRuntime {
  jheap : JavaHeap;
  classTable : list JavaClass;
  collector : ConcurrentGC;
  threadNum : Z;
  trace : list Event
}.

(** ** The state-and-failure monad *)

Inductive Failure : Type :=
| BadTypeid           (* typeid through a null pointer *)
| NullPointer         (* member access through nullptr *)
| OutOfRange          (* slot index beyond the slot storage *)
| DanglingOffset      (* offset with no entry in its container *)
| ShouldNotReachHere  (* SHOULD_NOT_REACH_HERE *)
| Blocked             (* waiting on something that cannot happen *)
| OutOfFuel.

Inductive Outcome (A : Type) : Type :=
| Done (a : A) (s : Runtime)
| Fail (f : Failure).
Arguments Done {A} a s.
Arguments Fail {A} f.

Definition M (A : Type) : Type := Runtime -> Outcome A.

Definition ret {A} (a : A) : M A := fun s => Done a s.

Definition bind {A B} (c : M A) (k : A -> M B) : M B :=
  fun s => match c s with
           | Done a s' => k a s'
           | Fail f => Fail f
           end.

Definition fail {A} (f : Failure) : M A := fun _ => Fail f.

Definition read {A} (f : Runtime -> A) : M A := fun s => Done (f s) s.

Definition modify (f : Runtime -> Runtime) : M unit := fun s => Done tt (f s).

Global Instance gc_ret : MRet M := @ret.
Global Instance gc_bind : MBind M := fun A B k c => bind c k.

(** A [for] loop whose body may fail. *)
Fixpoint forEach {A} (body : A -> M unit) (l : list A) : M unit :=
  match l with
  | [] => ret tt
  | x :: rest => body x ;; forEach body rest
  end.

(** ** Field updates *)

Definition with_heap (f : JavaHeap -> JavaHeap) (s : Runtime) : Runtime :=
  mkRuntime (f (jheap s)) (classTable s) (collector s) (threadNum s) (trace s).

Definition with_collector (f : ConcurrentGC -> ConcurrentGC) (s : Runtime)
  : Runtime :=
  mkRuntime (jheap s) (classTable s) (f (collector s)) (threadNum s) (trace s).

Definition with_pool (f : GCThreadPool -> GCThreadPool) (s : Runtime)
  : Runtime :=
  with_collector
    (fun g => mkGC (frames g) (overMemoryThreshold g) (objectBitmap g)
                   (arrayBitmap g) (safepointWaitCnt g) (f (gcThreadPool g)))
    s.

Definition log (e : Event) (s : Runtime) : Runtime :=
  mkRuntime (jheap s) (classTable s) (collector s) (threadNum s)
            (trace s ++ [e]).

Definition emit (e : Event) : M unit := modify (log e).

Definition set_frames (fr : option JavaFrame) (g : ConcurrentGC) :=
  mkGC fr (overMemoryThreshold g) (objectBitmap g) (arrayBitmap g)
       (safepointWaitCnt g) (gcThreadPool g).

Definition set_overMemoryThreshold (b : bool) (g : ConcurrentGC) :=
  mkGC (frames g) b (objectBitmap g) (arrayBitmap g)
       (safepointWaitCnt g) (gcThreadPool g).

Definition set_objectBitmap (bm : gset N) (g : ConcurrentGC) :=
  mkGC (frames g) (overMemoryThreshold g) bm (arrayBitmap g)
       (safepointWaitCnt g) (gcThreadPool g).

Definition set_arrayBitmap (bm : gset N) (g : ConcurrentGC) :=
  mkGC (frames g) (overMemoryThreshold g) (objectBitmap g) bm
       (safepointWaitCnt g) (gcThreadPool g).

Definition set_safepointWaitCnt (n : Z) (g : ConcurrentGC) :=
  mkGC (frames g) (overMemoryThreshold g) (objectBitmap g) (arrayBitmap g)
       n (gcThreadPool g).

Definition set_objectContainer (m : gmap N (list (option JType)))
  (h : JavaHeap) :=
  mkJavaHeap m (arrayContainer h) (monitorContainer h).

Definition set_arrayContainer (m : gmap N (N * list (option JType)))
  (h : JavaHeap) :=
  mkJavaHeap (objectContainer h) m (monitorContainer h).

Definition set_monitorContainer (m : gmap N ObjectMonitor) (h : JavaHeap) :=
  mkJavaHeap (objectContainer h) (arrayContainer h) m.

(** ** The marker *)

(** [objectBitmap.insert(offset)] under [objSpin]. *)
Definition insertObjectBitmap (offset : N) : M unit :=
  modify (with_collector
            (fun g => set_objectBitmap ({[offset]} ∪ objectBitmap g) g)).

(** [arrayBitmap.insert(offset)] under [arrSpin]. *)
Definition insertArrayBitmap (offset : N) : M unit :=
  modify (with_collector
            (fun g => set_arrayBitmap ({[offset]} ∪ arrayBitmap g) g)).

(** Modelled from the spec: [JavaHeap::getFields] is declared in
    JavaHeap.hpp; it enumerates the field slots of the object with the
    given handle, here by its offset in the object container.  An offset
    without an entry has nothing to enumerate and is a failure. *)
Definition getFields (offset : N) : M (list (option JType)) :=
  fun s => match objectContainer (jheap s) !! offset with
           | Some fields => Done fields s
           | None => Fail DanglingOffset
           end.

(** Modelled from the spec: [JavaHeap::getElements] is declared in
    JavaHeap.hpp; it gives the length of the array with the given handle
    and its element slots. *)
Definition getElements (offset : N) : M (N * list (option JType)) :=
  fun s => match arrayContainer (jheap s) !! offset with
           | Some items => Done items s
           | None => Fail DanglingOffset
           end.

(** Modelled from the spec: the macro [SHOULD_NOT_REACH_HERE] is defined
    outside GC.cpp; it signals an internal invariant violation, fatal and
    not recoverable. *)
Definition SHOULD_NOT_REACH_HERE {A} : M A := fail ShouldNotReachHere.

(** [slots[i]] on a raw slot array. *)
Definition readSlot (slots : list (option JType)) (i : nat)
  : M (option JType) :=
  match slots !! i with
  | Some r => ret r
  | None => fail OutOfRange
  end.

(** [ConcurrentGC::mark]. *)
Fixpoint mark (fuel : nat) (ref : option JType) : M unit :=
  match ref with
  | None => ret tt
  | Some (JObject offset) =>
      match fuel with
      | O => fail OutOfFuel
      | S fuel' =>
          insertObjectBitmap offset ;;
          fields ← getFields offset ;
          forEach (mark fuel') fields
      end
  | Some (JArray offset) =>
      match fuel with
      | O => fail OutOfFuel
      | S fuel' =>
          insertArrayBitmap offset ;;
          items ← getElements offset ;
          forEach (fun i => r ← readSlot items.2 i ; mark fuel' r)
                  (seq 0 (N.to_nat items.1))
      end
  | Some _ => SHOULD_NOT_REACH_HERE
  end.

(** ** The worker pool *)

Definition pool (s : Runtime) : GCThreadPool := gcThreadPool (collector s).

(** Modelled from the spec: [GCThreadPool::signalWork] is declared in
    Concurrent.hpp; it sets the pool's wake flag. *)
Definition signalWork : M unit :=
  modify (with_pool (fun p => mkPool true (taskQueue p) (issued p))) ;;
  emit EvSignalWork.

(** Modelled from the spec: [GCThreadPool::signalWait] is declared in
    Concurrent.hpp; it sends the pool back to its waiting state. *)
Definition signalWait : M unit :=
  modify (with_pool (fun p => mkPool false (taskQueue p) (issued p))) ;;
  emit EvSignalWait.

(** Modelled from the spec: [GCThreadPool::submit] is declared in
    Concurrent.hpp; it enqueues the task and returns a handle to wait
    on. *)
Definition submit (t : Task) : M nat :=
  fun s =>
    let fut := issued (pool s) in
    (emit (EvSubmit fut t) ;; mret fut)
      (with_pool
         (fun p => mkPool (work p) (taskQueue p ++ [(fut, t)]) (S (issued p)))
         s).

(** The task of a future, taken out of the queue. *)
Fixpoint takeTask (fut : nat) (q : list (nat * Task))
  : option (Task * list (nat * Task)) :=
  match q with
  | [] => None
  | (f, t) :: q' =>
      if decide (f = fut) then Some (t, q')
      else match takeTask fut q' with
           | Some (t', r) => Some (t', (f, t) :: r)
           | None => None
           end
  end.

(** ** The sweeper's loops and the remaining tasks *)

(** The iterate-and-erase loop shared by the three sweep tasks: every
    entry whose key fails [keep] is erased. *)
Definition sweepContainer {V} (keep : N -> bool) (data : gmap N V)
  : gmap N V :=
  foldr (fun pos m => if keep pos.1 then m else delete pos.1 m)
        data (map_to_list data).

(** The body of the [for_each] over [staticVars]. *)
Definition markStaticVar (offset : N * option JType) : M unit :=
  match offset.2 with
  | None => fail BadTypeid
  | Some (JObject _) => insertObjectBitmap offset.1
  | Some (JArray _) => insertArrayBitmap offset.1
  | Some _ => mret tt
  end.

(** The lambdas of [markAndSweep] and [sweep]. *)
Definition runTask (fuel : nat) (t : Task) : M unit :=
  match t with
  | StackMarkTask temp =>
      forEach (fun i => r ← readSlot (stackSlots temp) i ; mark fuel r)
              (seq 0 (Z.to_nat (maxStack temp)))
  | LocalMarkTask temp =>
      forEach (fun i => r ← readSlot (localSlots temp) i ; mark fuel r)
              (seq 0 (Z.to_nat (maxLocal temp)))
  | StaticFieldsTask =>
      classes ← read classTable ;
      forEach (fun c => forEach markStaticVar (staticVars c)) classes
  | ObjectSweepTask =>
      bm ← read (fun s => objectBitmap (collector s)) ;
      modify (with_heap
                (fun h => set_objectContainer
                            (sweepContainer (fun k => bool_decide (k ∈ bm))
                                            (objectContainer h)) h))
  | ArraySweepTask =>
      bm ← read (fun s => arrayBitmap (collector s)) ;
      modify (with_heap
                (fun h => set_arrayContainer
                            (sweepContainer (fun k => bool_decide (k ∈ bm))
                                            (arrayContainer h)) h))
  | MonitorSweepTask =>
      obm ← read (fun s => objectBitmap (collector s)) ;
      abm ← read (fun s => arrayBitmap (collector s)) ;
      modify (with_heap
                (fun h => set_monitorContainer
                            (sweepContainer
                               (fun k => negb (bool_decide (k ∉ obm)
                                               || bool_decide (k ∉ abm)))
                               (monitorContainer h)) h))
  end.

(** [future.get()]: returns once the task of the future has run.  A task
    still in the queue runs now, provided the pool is awake; with the pool
    asleep nobody will ever run it. *)
Definition get (fuel : nat) (fut : nat) : M unit :=
  (fun s =>
     match takeTask fut (taskQueue (pool s)) with
     | None => Done tt s
     | Some (t, q') =>
         if work (pool s)
         then runTask fuel t
                (with_pool (fun p => mkPool (work p) q' (issued p)) s)
         else Fail Blocked
     end) ;;
  emit (EvGet fut).

(** ** The collector *)

(** [ConcurrentGC::sweep]. *)
Definition sweep (fuel : nat) : M unit :=
  objectFuture ← submit ObjectSweepTask ;
  arrayFuture ← submit ArraySweepTask ;
  monitorFuture ← submit MonitorSweepTask ;
  get fuel objectFuture ;;
  get fuel arrayFuture ;;
  get fuel monitorFuture.

(** The [while (temp != nullptr)] loop of [markAndSweep]; it returns
    [stackMarkFuture] and [localMarkFuture]. *)
Fixpoint submitFrames (temp : list Frame) : M (list nat * list nat) :=
  match temp with
  | [] => mret ([], [])
  | fr :: next =>
      sk ← submit (StackMarkTask fr) ;
      lv ← submit (LocalMarkTask fr) ;
      rest ← submitFrames next ;
      mret (sk :: rest.1, lv :: rest.2)
  end.

(** [markAndSweep] up to, and without, its last statement [sweep()]. *)
Definition markPhase (fuel : nat) : M unit :=
  chain ← read (fun s => frames (collector s)) ;
  top ← match chain with
        | Some top => mret top
        | None => fail NullPointer
        end ;
  futures ← submitFrames top ;
  staticFieldsFuture ← submit StaticFieldsTask ;
  get fuel staticFieldsFuture ;;
  forEach (get fuel) futures.1 ;;
  forEach (get fuel) futures.2.

(** [ConcurrentGC::markAndSweep]. *)
Definition markAndSweep (fuel : nat) : M unit :=
  markPhase fuel ;; sweep fuel.

(** [ConcurrentGC::gc].  The [lock_guard] on [overMemoryThresholdMtx]
    serialises whole calls and has no effect inside one. *)
Definition gc (fuel : nat) (frames : option JavaFrame) (policy : GCPolicy)
  : M unit :=
  modify (with_collector (set_frames frames)) ;;
  over ← read (fun s => overMemoryThreshold (collector s)) ;
  if negb over then mret tt
  else
    match policy with
    | GC_MARK_AND_SWEEP => signalWork ;; markAndSweep fuel
    | _ => signalWork ;; markAndSweep fuel
    end ;;
    modify (with_collector (set_objectBitmap ∅)) ;;
    modify (with_collector (set_arrayBitmap ∅)) ;;
    modify (with_collector (set_overMemoryThreshold false)) ;;
    signalWait.

(** The [while] loop of [stopTheWorld]: the caller wakes up once per
    element of [arrivals], which tells how many other threads have
    incremented the counter since it last looked.  [None]: still
    waiting when the wake-ups run out. *)
Fixpoint safepointWait (expected cnt : Z) (arrivals : list Z) : option Z :=
  if decide (cnt = expected) then Some cnt
  else match arrivals with
       | [] => None
       | k :: rest => safepointWait expected (cnt + k) rest
       end.

(** [ConcurrentGC::stopTheWorld], for one calling thread.  The counter is
    taken as an unbounded integer (its declaration is in GC.h); the final
    [notify_all] only concerns the other waiting threads. *)
Definition stopTheWorld (arrivals : list Z) : M unit :=
  emit EvStopTheWorld ;;
  modify (with_collector
            (fun g => set_safepointWaitCnt (safepointWaitCnt g + 1) g)) ;;
  cnt ← read (fun s => safepointWaitCnt (collector s)) ;
  expected ← read threadNum ;
  match safepointWait expected cnt arrivals with
  | Some cnt' => modify (with_collector (set_safepointWaitCnt cnt'))
  | None => fail Blocked
  end.

(** * Properties *)

(** ** Reasoning about the monad *)

Lemma bind_Done {A B} (c : M A) (k : A -> M B) s b s' :
  (c ≫= k) s = Done b s' <->
  exists a s1, c s = Done a s1 /\ k a s1 = Done b s'.
Proof.
  unfold mbind, gc_bind, bind. split.
  - destruct (c s) as [a s1|f] eqn:E; [eauto | discriminate].
  - intros (a & s1 & -> & H). exact H.
Qed.

Lemma bind_run {A B} (c : M A) (k : A -> M B) s a s1 :
  c s = Done a s1 -> (c ≫= k) s = k a s1.
Proof. intros H. unfold mbind, gc_bind, bind. now rewrite H. Qed.

Lemma bind_fail {A B} (c : M A) (k : A -> M B) s f :
  c s = Fail f -> (c ≫= k) s = Fail f.
Proof. intros H. unfold mbind, gc_bind, bind. now rewrite H. Qed.

Ltac run_monad :=
  unfold mbind, gc_bind, bind, mret, gc_ret, ret, modify, read, fail in *;
  simpl in *.

(** ** The marker on a null reference *)

(** C5: whatever the collector state and the recursion budget, [mark] on
    the null reference returns normally (no failure of any kind), and both
    mark sets, indeed the whole state, are what they were. *)
Theorem mark_null_is_noop (fuel : nat) (s : Runtime) :
  exists s',
    mark fuel None s = Done tt s' /\
    objectBitmap (collector s') = objectBitmap (collector s) /\
    arrayBitmap (collector s') = arrayBitmap (collector s) /\
    s' = s.
Proof.
  exists s. destruct fuel; repeat split; reflexivity.
Qed.

(** ** The coordinator with the flag clear *)

Lemma gc_flag_clear fuel fr policy s :
  overMemoryThreshold (collector s) = false ->
  gc fuel fr policy s = Done tt (with_collector (set_frames fr) s).
Proof.
  intros H. unfold gc. run_monad. now rewrite H.
Qed.

(** C4: with the over-memory-threshold flag clear, [gc] returns at once:
    the three heap containers, both mark sets and the flag are unchanged,
    and nothing was signalled, submitted or awaited (the trace and the
    pool are unchanged, so mark-and-sweep did not run). *)
Theorem gc_noop_when_flag_clear
  (fuel : nat) (fr : option JavaFrame) (policy : GCPolicy) (s : Runtime) :
  overMemoryThreshold (collector s) = false ->
  exists s',
    gc fuel fr policy s = Done tt s' /\
    jheap s' = jheap s /\
    objectBitmap (collector s') = objectBitmap (collector s) /\
    arrayBitmap (collector s') = arrayBitmap (collector s) /\
    overMemoryThreshold (collector s') = overMemoryThreshold (collector s) /\
    gcThreadPool (collector s') = gcThreadPool (collector s) /\
    trace s' = trace s.
Proof.
  intros H. eexists. split; [apply gc_flag_clear, H|].
  repeat split; reflexivity.
Qed.

(** C10: [gc] stores its argument in [this->frames] before it looks at the
    flag: a call with the flag clear still returns with the argument as
    the recorded frame chain, so the collector state differs from the one
    before the call whenever another chain (or none) was recorded. *)
Theorem gc_records_frames_before_flag_check
  (fuel : nat) (fr : option JavaFrame) (policy : GCPolicy) (s : Runtime) :
  overMemoryThreshold (collector s) = false ->
  exists s',
    gc fuel fr policy s = Done tt s' /\
    frames (collector s') = fr /\
    (frames (collector s) <> fr -> collector s' <> collector s).
Proof.
  intros H. eexists. split; [apply gc_flag_clear, H|].
  split; [reflexivity|].
  intros Hne Heq. apply Hne. rewrite <- Heq. reflexivity.
Qed.

(** C9: the policy does not matter: for every policy value, [gc] is the
    same state transformer (same result, same failure) as with
    [GC_MARK_AND_SWEEP]. *)
Theorem gc_policy_irrelevant
  (fuel : nat) (fr : option JavaFrame) (policy : GCPolicy) (s : Runtime) :
  gc fuel fr policy s = gc fuel fr GC_MARK_AND_SWEEP s.
Proof.
  unfold gc. destruct policy; reflexivity.
Qed.

(** ** What a computation may change *)

(** [respects R c]: every run of [c] that returns takes a state to an
    [R]-related one.  With [R] a preorder this composes along [;;]. *)
Definition respects {A} (R : relation Runtime) (c : M A) : Prop :=
  forall s a s', c s = Done a s' -> R s s'.

(** [same view]: the relation of leaving [view] unchanged. *)
Definition same {V} (view : Runtime -> V) : relation Runtime :=
  fun s s' => view s' = view s.

Definition keeps {V A} (view : Runtime -> V) (c : M A) : Prop :=
  respects (same view) c.

(** The mark sets only grow. *)
Definition le_marks : relation Runtime :=
  fun s s' =>
    objectBitmap (collector s) ⊆ objectBitmap (collector s') /\
    arrayBitmap (collector s) ⊆ arrayBitmap (collector s').

Definition set_marks (ob ab : gset N) (s : Runtime) : Runtime :=
  with_collector (fun g => set_arrayBitmap ab (set_objectBitmap ob g)) s.

Definition allows_marking (R : relation Runtime) : Prop :=
  forall ob ab s,
    objectBitmap (collector s) ⊆ ob -> arrayBitmap (collector s) ⊆ ab ->
    R s (set_marks ob ab s).

Definition allows_sweeping (R : relation Runtime) : Prop :=
  forall h s, R s (with_heap (fun _ => h) s).

Definition allows_pool (R : relation Runtime) : Prop :=
  forall p s, R s (with_pool (fun _ => p) s).

Definition allows_event (e : Event) (R : relation Runtime) : Prop :=
  forall s, R s (log e s).

Definition allows_reset (R : relation Runtime) : Prop :=
  forall s,
    (forall fr, R s (with_collector (set_frames fr) s)) /\
    (forall b, R s (with_collector (set_overMemoryThreshold b) s)) /\
    (forall ob ab, R s (set_marks ob ab s)).

Global Instance same_preorder {V} (view : Runtime -> V) : PreOrder (same view).
Proof.
  split; [intros s; reflexivity|].
  intros s1 s2 s3 H12 H23. unfold same in *. congruence.
Qed.

Global Instance le_marks_preorder : PreOrder le_marks.
Proof.
  split; [intros s; split; reflexivity|].
  intros s1 s2 s3 [Ho1 Ha1] [Ho2 Ha2]. split; etransitivity; eassumption.
Qed.

Lemma le_marks_allows_marking : allows_marking le_marks.
Proof. intros ob ab s Ho Ha. split; assumption. Qed.

Section Respects.
Context (R : relation Runtime) `{!PreOrder R}.

Lemma respects_ret {A} (a : A) : respects R (mret a).
Proof. intros s a' s' H. run_monad. inversion H; subst. reflexivity. Qed.

Lemma respects_fail {A} (f : Failure) : respects R (fail f : M A).
Proof. intros s a' s' H. discriminate. Qed.

Lemma respects_read {A} (f : Runtime -> A) : respects R (read f).
Proof. intros s a' s' H. run_monad. inversion H; subst. reflexivity. Qed.

Lemma respects_modify (f : Runtime -> Runtime) :
  (forall s, R s (f s)) -> respects R (modify f).
Proof. intros Hf s a' s' H. run_monad. inversion H; subst. apply Hf. Qed.

Lemma respects_bind {A B} (c : M A) (k : A -> M B) :
  respects R c -> (forall a, respects R (k a)) -> respects R (c ≫= k).
Proof.
  intros Hc Hk s b s' H. apply bind_Done in H as (a & s1 & H1 & H2).
  transitivity s1; [eapply Hc, H1 | eapply Hk, H2].
Qed.

Lemma respects_forEach {A} (body : A -> M unit) (l : list A) :
  (forall x, respects R (body x)) -> respects R (forEach body l).
Proof.
  intros Hb. induction l as [|x l IH]; simpl.
  - apply (respects_ret tt).
  - apply respects_bind; auto.
Qed.

Lemma respects_getFields offset : respects R (getFields offset).
Proof.
  intros s a s' H. unfold getFields in H.
  destruct (objectContainer (jheap s) !! offset); inversion H; subst.
  reflexivity.
Qed.

Lemma respects_getElements offset : respects R (getElements offset).
Proof.
  intros s a s' H. unfold getElements in H.
  destruct (arrayContainer (jheap s) !! offset); inversion H; subst.
  reflexivity.
Qed.

Lemma respects_readSlot slots i : respects R (readSlot slots i).
Proof.
  unfold readSlot. destruct (slots !! i);
    [apply respects_ret | apply respects_fail].
Qed.

Lemma respects_emit e : allows_event e R -> respects R (emit e).
Proof. intros He. apply respects_modify, He. Qed.

Hypothesis R_marking : allows_marking R.

Lemma respects_insertObjectBitmap offset :
  respects R (insertObjectBitmap offset).
Proof.
  apply respects_modify. intros s.
  change (R s (set_marks ({[offset]} ∪ objectBitmap (collector s))
                         (arrayBitmap (collector s)) s)).
  apply R_marking; set_solver.
Qed.

Lemma respects_insertArrayBitmap offset :
  respects R (insertArrayBitmap offset).
Proof.
  apply respects_modify. intros s.
  change (R s (set_marks (objectBitmap (collector s))
                         ({[offset]} ∪ arrayBitmap (collector s)) s)).
  apply R_marking; set_solver.
Qed.

Lemma respects_mark fuel ref : respects R (mark fuel ref).
Proof.
  revert ref.
  induction fuel as [|fuel IH]; intros [[o|o|]|]; simpl;
    try apply respects_fail; try apply (respects_ret tt).
  - apply respects_bind; [apply respects_insertObjectBitmap|intros _].
    apply respects_bind; [apply respects_getFields|intros fields].
    apply respects_forEach, IH.
  - apply respects_bind; [apply respects_insertArrayBitmap|intros _].
    apply respects_bind; [apply respects_getElements|intros items].
    apply respects_forEach. intros i.
    apply respects_bind; [apply respects_readSlot|apply IH].
Qed.

Lemma respects_markStaticVar offset : respects R (markStaticVar offset).
Proof.
  unfold markStaticVar. destruct (offset.2) as [[o|o|]|].
  - apply respects_insertObjectBitmap.
  - apply respects_insertArrayBitmap.
  - apply (respects_ret tt).
  - apply respects_fail.
Qed.

(** The three marking tasks do nothing but add marks. *)
Lemma respects_mark_task fuel t :
  is_mark_task t = true -> respects R (runTask fuel t).
Proof.
  destruct t; simpl; try discriminate; intros _.
  - apply respects_forEach. intros i.
    apply respects_bind; [apply respects_readSlot|intros r; apply respects_mark].
  - apply respects_forEach. intros i.
    apply respects_bind; [apply respects_readSlot|intros r; apply respects_mark].
  - apply respects_bind; [apply respects_read|intros classes].
    apply respects_forEach. intros c. apply respects_forEach. intros x.
    apply respects_markStaticVar.
Qed.

Hypothesis R_sweeping : allows_sweeping R.

Lemma respects_runTask fuel t : respects R (runTask fuel t).
Proof.
  destruct (is_mark_task t) eqn:E; [now apply respects_mark_task|].
  destruct t; try discriminate; simpl.
  - apply respects_bind; [apply respects_read|intros bm].
    apply respects_modify. intros s. apply R_sweeping.
  - apply respects_bind; [apply respects_read|intros bm].
    apply respects_modify. intros s. apply R_sweeping.
  - apply respects_bind; [apply respects_read|intros obm].
    apply respects_bind; [apply respects_read|intros abm].
    apply respects_modify. intros s. apply R_sweeping.
Qed.

Hypothesis R_pool : allows_pool R.

Lemma respects_signalWork :
  allows_event EvSignalWork R -> respects R signalWork.
Proof.
  intros He. apply respects_bind; [|intros _; now apply respects_emit].
  apply respects_modify. intros s. apply R_pool.
Qed.

Lemma respects_signalWait :
  allows_event EvSignalWait R -> respects R signalWait.
Proof.
  intros He. apply respects_bind; [|intros _; now apply respects_emit].
  apply respects_modify. intros s. apply R_pool.
Qed.

Lemma respects_submit t :
  (forall fut, allows_event (EvSubmit fut t) R) -> respects R (submit t).
Proof.
  intros He s fut s' H. unfold submit in H.
  apply bind_Done in H as ([] & s1 & H1 & H2).
  run_monad. inversion H1; subst. inversion H2; subst.
  etransitivity; [apply R_pool | apply He].
Qed.

Lemma respects_get fuel fut :
  allows_event (EvGet fut) R -> respects R (get fuel fut).
Proof.
  intros He. apply respects_bind; [|intros _; now apply respects_emit].
  intros s [] s' H.
  destruct (takeTask fut (taskQueue (pool s))) as [[t q']|];
    [|inversion H; subst; reflexivity].
  destruct (work (pool s)); [|discriminate].
  apply (respects_runTask fuel t) in H.
  etransitivity; [apply R_pool | exact H].
Qed.

Hypothesis R_events : forall e, e <> EvStopTheWorld -> allows_event e R.

Lemma respects_sweep fuel : respects R (sweep fuel).
Proof.
  unfold sweep.
  repeat (apply respects_bind;
          [apply respects_submit; intros; now apply R_events|intros ?]).
  repeat (apply respects_bind;
          [apply respects_get; now apply R_events|intros ?]).
  apply respects_get; now apply R_events.
Qed.

Lemma respects_submitFrames temp : respects R (submitFrames temp).
Proof.
  induction temp as [|fr next IH]; simpl.
  - apply respects_ret.
  - repeat (apply respects_bind;
            [apply respects_submit; intros; now apply R_events|intros ?]).
    apply respects_bind; [exact IH|intros ?; apply respects_ret].
Qed.

Lemma respects_markPhase fuel : respects R (markPhase fuel).
Proof.
  assert (Hget : forall fut, respects R (get fuel fut))
    by (intros; apply respects_get; now apply R_events).
  unfold markPhase.
  apply respects_bind; [apply respects_read|intros chain].
  apply respects_bind;
    [destruct chain; [apply respects_ret|apply respects_fail]|intros top].
  apply respects_bind; [apply respects_submitFrames|intros futures].
  apply respects_bind;
    [apply respects_submit; intros; now apply R_events|intros fut].
  apply respects_bind; [apply Hget|intros _].
  apply respects_bind; [now apply respects_forEach|intros _].
  now apply respects_forEach.
Qed.

Lemma respects_markAndSweep fuel : respects R (markAndSweep fuel).
Proof.
  apply respects_bind;
    [apply respects_markPhase|intros _; apply respects_sweep].
Qed.

Hypothesis R_reset : allows_reset R.

Lemma respects_gc fuel fr policy : respects R (gc fuel fr policy).
Proof.
  unfold gc.
  apply respects_bind;
    [apply respects_modify; intros s; apply (R_reset s)|intros _].
  apply respects_bind; [apply respects_read|intros over].
  destruct (negb over); [apply (respects_ret tt)|].
  apply respects_bind.
  { destruct policy;
      (apply respects_bind;
       [apply respects_signalWork; now apply R_events
       |intros _; apply respects_markAndSweep]). }
  intros _.
  apply respects_bind;
    [apply respects_modify; intros s;
     apply (proj2 (proj2 (R_reset s)) ∅ (arrayBitmap (collector s)))
    |intros _].
  apply respects_bind;
    [apply respects_modify; intros s;
     apply (proj2 (proj2 (R_reset s)) (objectBitmap (collector s)) ∅)
    |intros _].
  apply respects_bind;
    [apply respects_modify; intros s; apply (R_reset s)|intros _].
  apply respects_signalWait; now apply R_events.
Qed.
End Respects.

(** ** The coordinator with the flag set *)

(** The state in which a collecting [gc] enters [markAndSweep]: frame
    chain recorded, pool signalled. *)
Definition gc_start (fr : option JavaFrame) (s : Runtime) : Runtime :=
  log EvSignalWork
    (with_pool (fun p => mkPool true (taskQueue p) (issued p))
       (with_collector (set_frames fr) s)).

(** What [gc] does after [markAndSweep] has returned. *)
Definition gc_finish (s : Runtime) : Runtime :=
  log EvSignalWait
    (with_pool (fun p => mkPool false (taskQueue p) (issued p))
       (with_collector (set_overMemoryThreshold false)
          (with_collector (set_arrayBitmap ∅)
             (with_collector (set_objectBitmap ∅) s)))).

Lemma gc_flag_set fuel fr policy s :
  overMemoryThreshold (collector s) = true ->
  gc fuel fr policy s =
  match markAndSweep fuel (gc_start fr s) with
  | Done _ s1 => Done tt (gc_finish s1)
  | Fail f => Fail f
  end.
Proof.
  intros H. unfold gc, signalWork, signalWait, emit.
  run_monad. rewrite H. simpl. unfold gc_start.
  destruct policy; destruct (markAndSweep fuel _) as [[] s1|f]; reflexivity.
Qed.

Lemma gc_flag_set_Done fuel fr policy s s' :
  overMemoryThreshold (collector s) = true ->
  gc fuel fr policy s = Done tt s' ->
  exists s1, markAndSweep fuel (gc_start fr s) = Done tt s1 /\
             s' = gc_finish s1.
Proof.
  intros H Hgc. rewrite (gc_flag_set _ _ _ _ H) in Hgc.
  destruct (markAndSweep fuel _) as [[] s1|f]; [|discriminate].
  exists s1. split; [reflexivity|]. now inversion Hgc.
Qed.

(** C6: a collecting cycle that completes ends with both mark sets empty
    and the over-memory-threshold flag cleared. *)
Theorem gc_resets_marks_and_flag
  (fuel : nat) (fr : option JavaFrame) (policy : GCPolicy) (s s' : Runtime) :
  overMemoryThreshold (collector s) = true ->
  gc fuel fr policy s = Done tt s' ->
  objectBitmap (collector s') = ∅ /\
  arrayBitmap (collector s') = ∅ /\
  overMemoryThreshold (collector s') = false.
Proof.
  intros H Hgc.
  destruct (gc_flag_set_Done _ _ _ _ _ H Hgc) as (s1 & _ & ->).
  repeat split; reflexivity.
Qed.

(** ** The safepoint rendezvous *)

Definition is_EvStopTheWorld (e : Event) : bool :=
  match e with EvStopTheWorld => true | _ => false end.

(** How often [stopTheWorld] has been entered, and the rendezvous state
    it works on. *)
Definition stopTheWorldCalls (s : Runtime) : nat :=
  length (List.filter is_EvStopTheWorld (trace s)).

Definition safepointView (s : Runtime) : nat * Z * Z :=
  (stopTheWorldCalls s, safepointWaitCnt (collector s), threadNum s).

Lemma gc_keeps_safepointView fuel fr policy :
  keeps safepointView (gc fuel fr policy).
Proof.
  apply respects_gc; try apply _; try (intro; intros; reflexivity).
  - intros e He s. unfold same, safepointView, stopTheWorldCalls, log; simpl.
    rewrite List.filter_app, length_app. simpl.
    destruct e; simpl; try (now rewrite Nat.add_0_r). congruence.
  - intros s. repeat split.
Qed.

Lemma safepointWait_Some expected cnt arrivals cnt' :
  safepointWait expected cnt arrivals = Some cnt' -> cnt' = expected.
Proof.
  revert cnt. induction arrivals as [|k rest IH]; intros cnt; simpl;
    destruct (decide (cnt = expected)); try congruence. apply IH.
Qed.

Lemma safepointWait_alone expected cnt :
  cnt <> expected -> safepointWait expected cnt [] = None.
Proof. intros H. simpl. now destruct (decide (cnt = expected)). Qed.

Lemma stopTheWorld_Done arrivals s s' :
  stopTheWorld arrivals s = Done tt s' ->
  stopTheWorldCalls s' = S (stopTheWorldCalls s) /\
  safepointWaitCnt (collector s') = threadNum s /\
  threadNum s' = threadNum s.
Proof.
  unfold stopTheWorld, emit. run_monad.
  destruct (safepointWait _ _ arrivals) as [cnt'|] eqn:E; [|discriminate].
  intros H. inversion H; subst; clear H. simpl.
  apply safepointWait_Some in E. subst cnt'.
  repeat split. unfold stopTheWorldCalls. simpl.
  rewrite List.filter_app, length_app. simpl. lia.
Qed.

(** ** Scenarios *)

(** An idle collector whose threshold flag is [over]. *)
Definition idle_collector (over : bool) : ConcurrentGC :=
  mkGC None over ∅ ∅ 0 (mkPool false [] 0).

(** A root-referenced object 1 pointing to object 2 pointing to array 3,
    whose second element is object 4; object 7 is garbage; object 1 has a
    monitor. *)
Definition chain_heap : JavaHeap :=
  mkJavaHeap
    {[ 1%N := [Some (JObject 2); None]; 2%N := [Some (JArray 3)];
       4%N := []; 7%N := [] ]}
    {[ 3%N := (2%N, [None; Some (JObject 4)]) ]}
    {[ 1%N := MkObjectMonitor ]}.

Definition chain_frames : JavaFrame :=
  [mkFrame 2 [None; Some (JObject 1)] 1 [None]].

(** Two mutator threads are active. *)
Definition chain_runtime (over : bool) : Runtime :=
  mkRuntime chain_heap [] (idle_collector over) 2 [].

Definition outcome_state (o : Outcome unit) (default : Runtime) : Runtime :=
  match o with Done _ s => s | Fail _ => default end.

Definition chain_runtime_collected : Runtime :=
  outcome_state (gc 4 (Some chain_frames) GC_MARK_AND_SWEEP (chain_runtime true))
                (chain_runtime true).

Lemma chain_runtime_gc :
  gc 4 (Some chain_frames) GC_MARK_AND_SWEEP (chain_runtime true)
  = Done tt chain_runtime_collected.
Proof. vm_compute. reflexivity. Qed.

Lemma gc_noop_when_flag_clear_witness :
  exists s',
    gc 4 (Some chain_frames) GC_MARK_AND_SWEEP (chain_runtime false) = Done tt s' /\
    jheap s' = jheap (chain_runtime false) /\
    objectBitmap (collector s') = objectBitmap (collector (chain_runtime false)) /\
    arrayBitmap (collector s') = arrayBitmap (collector (chain_runtime false)) /\
    overMemoryThreshold (collector s')
    = overMemoryThreshold (collector (chain_runtime false)) /\
    gcThreadPool (collector s') = gcThreadPool (collector (chain_runtime false)) /\
    trace s' = trace (chain_runtime false).
Proof.
  apply (gc_noop_when_flag_clear 4 (Some chain_frames) GC_MARK_AND_SWEEP
                                 (chain_runtime false)).
  reflexivity.
Defined.

Lemma gc_records_frames_before_flag_check_witness :
  exists s',
    gc 4 (Some chain_frames) GC_MARK_AND_SWEEP (chain_runtime false)
    = Done tt s' /\
    frames (collector s') = Some chain_frames /\
    collector s' <> collector (chain_runtime false).
Proof.
  destruct (gc_records_frames_before_flag_check
              4 (Some chain_frames) GC_MARK_AND_SWEEP (chain_runtime false)
              eq_refl) as (s' & Hgc & Hfr & Hne).
  exists s'. split; [exact Hgc|]. split; [exact Hfr|].
  apply Hne. discriminate.
Defined.

Lemma gc_resets_marks_and_flag_witness :
  objectBitmap (collector chain_runtime_collected) = ∅ /\
  arrayBitmap (collector chain_runtime_collected) = ∅ /\
  overMemoryThreshold (collector chain_runtime_collected) = false.
Proof.
  apply (gc_resets_marks_and_flag 4 (Some chain_frames) GC_MARK_AND_SWEEP
                                  (chain_runtime true) chain_runtime_collected).
  - reflexivity.
  - vm_compute. reflexivity.
Defined.

(** C3, as stated, fails: a collecting cycle that completes has entered
    [stopTheWorld] zero times, not once. *)
Lemma gc_stopTheWorld_once_counterexample :
  ~ (forall fuel fr policy s s',
       overMemoryThreshold (collector s) = true ->
       gc fuel fr policy s = Done tt s' ->
       stopTheWorldCalls s' = S (stopTheWorldCalls s)).
Proof.
  intros H.
  specialize (H 4%nat (Some chain_frames) GC_MARK_AND_SWEEP (chain_runtime true)
                chain_runtime_collected eq_refl chain_runtime_gc).
  vm_compute in H. discriminate.
Qed.

(** C3, amended: [gc] does not enter [stopTheWorld]: a collecting cycle
    that completes leaves the number of [stopTheWorld] calls and the
    rendezvous count as they were.  The rendezvous is a separate entry
    point: a call of [stopTheWorld] that returns was entered once and
    leaves the rendezvous count equal to the number of active threads;
    alone, with the count short of that number, it stays blocked. *)
Theorem gc_leaves_safepoint_to_caller
  (fuel : nat) (fr : option JavaFrame) (policy : GCPolicy) (s s' : Runtime) :
  overMemoryThreshold (collector s) = true ->
  gc fuel fr policy s = Done tt s' ->
  stopTheWorldCalls s' = stopTheWorldCalls s /\
  safepointWaitCnt (collector s') = safepointWaitCnt (collector s) /\
  (forall arrivals s2,
      stopTheWorld arrivals s' = Done tt s2 ->
      stopTheWorldCalls s2 = S (stopTheWorldCalls s') /\
      safepointWaitCnt (collector s2) = threadNum s') /\
  (safepointWaitCnt (collector s') + 1 <> threadNum s' ->
   stopTheWorld [] s' = Fail Blocked).
Proof.
  intros Hover Hgc.
  pose proof (gc_keeps_safepointView fuel fr policy _ _ _ Hgc) as Hv.
  unfold safepointView in Hv. inversion Hv as [[Hc Hn Ht]].
  repeat split; try assumption.
  - now apply (stopTheWorld_Done arrivals s' s2).
  - now apply (stopTheWorld_Done arrivals s' s2).
  - intros Hne. unfold stopTheWorld, emit. run_monad.
    destruct (decide _) as [E|_]; [contradiction|reflexivity].
Qed.

(** After the cycle of the chain scenario the first of the two threads to
    call [stopTheWorld] waits, and returns once the second has arrived. *)
Definition chain_runtime_rendezvous : Runtime :=
  outcome_state (stopTheWorld [1] chain_runtime_collected)
                chain_runtime_collected.

Lemma gc_leaves_safepoint_to_caller_witness :
  stopTheWorldCalls chain_runtime_collected
  = stopTheWorldCalls (chain_runtime true) /\
  safepointWaitCnt (collector chain_runtime_collected)
  = safepointWaitCnt (collector (chain_runtime true)) /\
  (stopTheWorldCalls chain_runtime_rendezvous
   = S (stopTheWorldCalls chain_runtime_collected) /\
   safepointWaitCnt (collector chain_runtime_rendezvous)
   = threadNum chain_runtime_collected) /\
  stopTheWorld [] chain_runtime_collected = Fail Blocked.
Proof.
  destruct (gc_leaves_safepoint_to_caller
              4 (Some chain_frames) GC_MARK_AND_SWEEP
              (chain_runtime true) chain_runtime_collected)
    as (Hcalls & Hcnt & Hreturn & Halone).
  - reflexivity.
  - vm_compute. reflexivity.
  - split; [exact Hcalls|]. split; [exact Hcnt|]. split.
    + apply (Hreturn [1]). vm_compute. reflexivity.
    + apply Halone. vm_compute. discriminate.
Defined.

(** ** The sweeper *)

Lemma sweep_fold_lookup {V} (keep : N -> bool) (data : gmap N V)
  (l : list (N * V)) (k : N) :
  foldr (fun pos m => if keep pos.1 then m else delete pos.1 m) data l !! k
  = if keep k then data !! k
    else if bool_decide (k ∈ l.*1) then None else data !! k.
Proof.
  induction l as [|[k0 v] l IH].
  - simpl. destruct (keep k); reflexivity.
  - rewrite fmap_cons. cbn [foldr fst].
    assert (Hin : k <> k0 -> bool_decide (k ∈ k0 :: l.*1)
                             = bool_decide (k ∈ l.*1))
      by (intros Hne; apply bool_decide_ext; rewrite elem_of_cons; tauto).
    destruct (keep k0) eqn:E0.
    + rewrite IH. destruct (keep k) eqn:Ek; [reflexivity|].
      rewrite Hin by congruence. reflexivity.
    + destruct (decide (k = k0)) as [->|Hne].
      * rewrite lookup_delete_eq, E0, bool_decide_true; [reflexivity|].
        set_solver.
      * rewrite lookup_delete_ne by congruence. rewrite IH, Hin by assumption.
        reflexivity.
Qed.

(** The erase loop keeps exactly the entries whose key passes [keep]. *)
Lemma sweepContainer_lookup {V} (keep : N -> bool) (data : gmap N V) k :
  sweepContainer keep data !! k = if keep k then data !! k else None.
Proof.
  unfold sweepContainer. rewrite sweep_fold_lookup.
  destruct (keep k); [reflexivity|].
  destruct (bool_decide _) eqn:E; [reflexivity|].
  apply bool_decide_eq_false in E.
  destruct (data !! k) as [v|] eqn:Ek; [|reflexivity].
  exfalso. apply E. apply list_elem_of_fmap. exists (k, v).
  split; [reflexivity|]. now apply elem_of_map_to_list.
Qed.

(** The heap that the three sweep tasks leave, given the mark sets. *)
Definition swept_heap (s : Runtime) : JavaHeap :=
  let ob := objectBitmap (collector s) in
  let ab := arrayBitmap (collector s) in
  mkJavaHeap
    (sweepContainer (fun k => bool_decide (k ∈ ob))
                    (objectContainer (jheap s)))
    (sweepContainer (fun k => bool_decide (k ∈ ab))
                    (arrayContainer (jheap s)))
    (sweepContainer (fun k => negb (bool_decide (k ∉ ob)
                                    || bool_decide (k ∉ ab)))
                    (monitorContainer (jheap s))).

(** ** Reference-following closure *)

(** [points_to h v w]: the heap value [v] holds a reference to [w], in a
    field slot of an object or in one of the first [length] element slots
    of an array. *)
Inductive points_to (h : JavaHeap) : JType -> JType -> Prop :=
| points_to_field offset fields w :
    objectContainer h !! offset = Some fields ->
    Some w ∈ fields ->
    points_to h (JObject offset) w
| points_to_element offset len elems i w :
    arrayContainer h !! offset = Some (len, elems) ->
    (i < N.to_nat len)%nat ->
    elems !! i = Some (Some w) ->
    points_to h (JArray offset) w.

Definition reachable (h : JavaHeap) : JType -> JType -> Prop :=
  rtc (points_to h).

Lemma forEach_Fail {A} (body : A -> M unit) l s f :
  forEach body l s = Fail f ->
  exists l1 x l2 s1,
    l = l1 ++ x :: l2 /\ forEach body l1 s = Done tt s1 /\
    body x s1 = Fail f.
Proof.
  revert s. induction l as [|x l IH]; intros s H; simpl in H.
  - discriminate.
  - destruct (body x s) as [[] s1|f'] eqn:E.
    + rewrite (bind_run _ _ _ _ _ E) in H.
      destruct (IH _ H) as (l1 & y & l2 & s2 & -> & H1 & H2).
      exists (x :: l1), y, l2, s2. repeat split; [|exact H2].
      simpl. now rewrite (bind_run _ _ _ _ _ E).
    + rewrite (bind_fail _ _ _ _ E) in H. inversion H; subst.
      exists [], x, l, s. repeat split. exact E.
Qed.

Lemma insertObjectBitmap_jheap offset s s' :
  insertObjectBitmap offset s = Done tt s' -> jheap s' = jheap s.
Proof. intros H. inversion H. reflexivity. Qed.

Lemma insertArrayBitmap_jheap offset s s' :
  insertArrayBitmap offset s = Done tt s' -> jheap s' = jheap s.
Proof. intros H. inversion H. reflexivity. Qed.

Lemma mark_keeps_jheap fuel ref : keeps jheap (mark fuel ref).
Proof. apply respects_mark; [apply _|]. intros ob ab s _ _. reflexivity. Qed.

Lemma bind_Fail {A B} (c : M A) (k : A -> M B) s f :
  (c ≫= k) s = Fail f ->
  c s = Fail f \/ exists a s1, c s = Done a s1 /\ k a s1 = Fail f.
Proof.
  unfold mbind, gc_bind, bind.
  destruct (c s) as [a s1|f'] eqn:E; [eauto|].
  intros H. left. congruence.
Qed.

Lemma mark_object fuel offset :
  mark (S fuel) (Some (JObject offset))
  = (insertObjectBitmap offset ;;
     fields ← getFields offset ;
     forEach (mark fuel) fields).
Proof. reflexivity. Qed.

Lemma mark_array fuel offset :
  mark (S fuel) (Some (JArray offset))
  = (insertArrayBitmap offset ;;
     items ← getElements offset ;
     forEach (fun i => r ← readSlot items.2 i ; mark fuel r)
             (seq 0 (N.to_nat items.1))).
Proof. reflexivity. Qed.

Lemma getFields_Done offset s fields s' :
  getFields offset s = Done fields s' ->
  s' = s /\ objectContainer (jheap s) !! offset = Some fields.
Proof.
  unfold getFields. destruct (objectContainer (jheap s) !! offset);
    intros H; inversion H; subst; auto.
Qed.

Lemma getElements_Done offset s items s' :
  getElements offset s = Done items s' ->
  s' = s /\ arrayContainer (jheap s) !! offset = Some items.
Proof.
  unfold getElements. destruct (arrayContainer (jheap s) !! offset);
    intros H; inversion H; subst; auto.
Qed.

Lemma readSlot_Done slots i s r s' :
  readSlot slots i s = Done r s' -> s' = s /\ slots !! i = Some r.
Proof.
  unfold readSlot. destruct (slots !! i); intros H; inversion H; subst; auto.
Qed.

(** A [SHOULD_NOT_REACH_HERE] out of [mark] comes from a reference, in the
    closure of the one [mark] was called on, that is neither an object nor
    an array. *)
Lemma mark_ShouldNotReachHere_origin fuel :
  forall ref s,
    mark fuel ref s = Fail ShouldNotReachHere ->
    exists v w,
      ref = Some v /\ reachable (jheap s) v w /\
      is_JObject w = false /\ is_JArray w = false.
Proof.
  induction fuel as [|fuel IH]; intros [[o|o|]|] s H;
    try discriminate;
    try (exists JPrimitive, JPrimitive; repeat split; apply rtc_refl).
  - (* object *)
    rewrite mark_object in H.
    apply bind_Fail in H as [H|([] & s1 & Hins & H)]; [discriminate|].
    apply insertObjectBitmap_jheap in Hins.
    apply bind_Fail in H as [H|(fields & s1' & Hf & H)].
    { unfold getFields in H. destruct (_ !! o); discriminate. }
    apply getFields_Done in Hf as [-> Ho]. rewrite Hins in Ho.
    apply forEach_Fail in H as (l1 & x & l2 & s2 & -> & H1 & H2).
    assert (Hh : jheap s2 = jheap s).
    { apply (respects_forEach (same jheap) (mark fuel) l1) in H1;
        [unfold same in H1; congruence|intros; apply mark_keeps_jheap]. }
    destruct (IH _ _ H2) as (v & w & -> & Hr & Hw). rewrite Hh in Hr.
    exists (JObject o), w. repeat split; try apply Hw.
    eapply rtc_l; [|exact Hr].
    eapply points_to_field; [exact Ho|].
    apply elem_of_app. right. apply elem_of_cons. now left.
  - (* array *)
    rewrite mark_array in H.
    apply bind_Fail in H as [H|([] & s1 & Hins & H)]; [discriminate|].
    apply insertArrayBitmap_jheap in Hins.
    apply bind_Fail in H as [H|([len elems] & s1' & Hf & H)].
    { unfold getElements in H. destruct (_ !! o); discriminate. }
    apply getElements_Done in Hf as [-> Ho]. rewrite Hins in Ho.
    cbn [fst snd] in H.
    apply forEach_Fail in H as (l1 & i & l2 & s2 & Hl & H1 & H2).
    assert (Hh : jheap s2 = jheap s).
    { apply (respects_forEach (same jheap) _ l1) in H1;
        [unfold same in H1; congruence|].
      intros j. apply respects_bind;
        [apply _|apply respects_readSlot, _|intros; apply mark_keeps_jheap]. }
    apply bind_Fail in H2 as [H2|(r & s2' & Hr2 & H2)].
    { unfold readSlot in H2. destruct (elems !! i); discriminate. }
    apply readSlot_Done in Hr2 as [-> Ei].
    destruct (IH _ _ H2) as (v & w & -> & Hr & Hw). rewrite Hh in Hr.
    exists (JArray o), w. repeat split; try apply Hw.
    eapply rtc_l; [|exact Hr].
    eapply points_to_element; [exact Ho| |exact Ei].
    assert (Hi : i ∈ seq 0 (N.to_nat len))
      by (rewrite Hl; apply elem_of_app; right; apply elem_of_cons; now left).
    apply elem_of_seq in Hi. lia.
Qed.

(** C8: on a non-null reference that is neither an object nor an array,
    [mark] fails with the fatal [SHOULD_NOT_REACH_HERE], whatever the
    state and the recursion budget; and that failure never arises from a
    reference whose closure holds only objects and arrays. *)
Theorem mark_unexpected_variant_is_fatal (fuel : nat) (v : JType) (s : Runtime) :
  (is_JObject v = false -> is_JArray v = false ->
   mark fuel (Some v) s = Fail ShouldNotReachHere) /\
  ((forall w, reachable (jheap s) v w ->
              is_JObject w = true \/ is_JArray w = true) ->
   mark fuel (Some v) s <> Fail ShouldNotReachHere).
Proof.
  split.
  - destruct v; try discriminate. intros _ _. destruct fuel; reflexivity.
  - intros Hwf H.
    apply mark_ShouldNotReachHere_origin in H as (v' & w & E & Hr & Ho & Ha).
    inversion E; subst v'. destruct (Hwf w Hr); congruence.
Qed.

(** ** Submitting to the pool and waiting on it *)

Definition queue (s : Runtime) : list (nat * Task) := taskQueue (pool s).

(** The state after the tasks of [q] have been submitted. *)
Definition submitted (q : list (nat * Task)) (s : Runtime) : Runtime :=
  let g := collector s in
  mkRuntime (jheap s) (classTable s)
    (mkGC (frames g) (overMemoryThreshold g) (objectBitmap g)
          (arrayBitmap g) (safepointWaitCnt g)
          (mkPool (work (pool s)) (queue s ++ q)
                  (issued (pool s) + length q)))
    (threadNum s) (trace s ++ map (fun e => EvSubmit e.1 e.2) q).

(** The state after the futures [ids] have been waited on, the effect of
    their tasks apart. *)
Definition awaited (ids : list nat) (s : Runtime) : Runtime :=
  let g := collector s in
  mkRuntime (jheap s) (classTable s)
    (mkGC (frames g) (overMemoryThreshold g) (objectBitmap g)
          (arrayBitmap g) (safepointWaitCnt g)
          (mkPool (work (pool s)) (filter (fun e => e.1 ∉ ids) (queue s))
                  (issued (pool s))))
    (threadNum s) (trace s ++ map EvGet ids).

(** The state with its mark sets blanked: what marking cannot change. *)
Definition unmarked (s : Runtime) : Runtime := set_marks ∅ ∅ s.

(** What the [while] loop of [markAndSweep] enqueues from future [n] on,
    and the futures it collects. *)
Fixpoint frame_queue (n : nat) (top : list Frame) : list (nat * Task) :=
  match top with
  | [] => []
  | fr :: next =>
      (n, StackMarkTask fr) :: (S n, LocalMarkTask fr)
      :: frame_queue (S (S n)) next
  end.

Fixpoint stack_futures (n : nat) (top : list Frame) : list nat :=
  match top with
  | [] => []
  | _ :: next => n :: stack_futures (S (S n)) next
  end.

Fixpoint local_futures (n : nat) (top : list Frame) : list nat :=
  match top with
  | [] => []
  | _ :: next => S n :: local_futures (S (S n)) next
  end.

Lemma submitted_nil s : submitted [] s = s.
Proof.
  destruct s as [h ct [fr fl ob ab cn [w q n]] tn tr].
  unfold submitted, queue, pool; simpl.
  now rewrite !app_nil_r, Nat.add_0_r.
Qed.

Lemma submitted_app q1 q2 s :
  submitted q2 (submitted q1 s) = submitted (q1 ++ q2) s.
Proof.
  unfold submitted, queue, pool; simpl.
  now rewrite map_app, !app_assoc, length_app, Nat.add_assoc.
Qed.

Lemma submit_spec t s :
  submit t s = Done (issued (pool s)) (submitted [(issued (pool s), t)] s).
Proof.
  destruct s as [h ct [fr fl ob ab cn [w q n]] tn tr].
  unfold submit, submitted, emit, queue, pool, log, with_pool, with_collector.
  run_monad. now rewrite Nat.add_1_r.
Qed.

Lemma length_frame_queue n top :
  length (frame_queue n top) = (2 * length top)%nat.
Proof. revert n. induction top as [|fr next IH]; intros n; simpl; [|rewrite IH]; lia. Qed.

Lemma submitFrames_spec top s :
  submitFrames top s
  = Done (stack_futures (issued (pool s)) top,
          local_futures (issued (pool s)) top)
         (submitted (frame_queue (issued (pool s)) top) s).
Proof.
  revert s. induction top as [|fr next IH]; intros s; simpl.
  - now rewrite submitted_nil.
  - rewrite (bind_run _ _ _ _ _ (submit_spec _ _)).
    rewrite (bind_run _ _ _ _ _ (submit_spec _ _)).
    rewrite (bind_run _ _ _ _ _ (IH _)).
    rewrite !submitted_app. simpl.
    replace (issued (pool s) + 2)%nat with (S (S (issued (pool s)))) by lia.
    replace (issued (pool s) + 1)%nat with (S (issued (pool s))) by lia.
    reflexivity.
Qed.

Lemma frame_queue_ids n top :
  (frame_queue n top).*1 = seq n (2 * length top).
Proof.
  revert n. induction top as [|fr next IH]; intros n; [reflexivity|].
  cbn [frame_queue]. rewrite !fmap_cons, IH. cbn [fst length].
  replace (2 * S (length next))%nat with (S (S (2 * length next))) by lia.
  reflexivity.
Qed.

Lemma frame_futures_perm n top :
  stack_futures n top ++ local_futures n top ≡ₚ (frame_queue n top).*1.
Proof.
  revert n. induction top as [|fr next IH]; intros n; [reflexivity|].
  cbn [frame_queue stack_futures local_futures]. rewrite !fmap_cons.
  cbn [fst]. rewrite <- IH, <- app_comm_cons.
  apply Permutation_skip. symmetry. apply Permutation_middle.
Qed.

Lemma frame_queue_mark_tasks n top e :
  e ∈ frame_queue n top -> is_mark_task e.2 = true.
Proof.
  revert n. induction top as [|fr next IH]; intros n H; simpl in H.
  - inversion H.
  - apply elem_of_cons in H as [->|H]; [reflexivity|].
    apply elem_of_cons in H as [->|H]; [reflexivity|]. eapply IH, H.
Qed.

Lemma forEach_app {A} (body : A -> M unit) l1 l2 s :
  forEach body (l1 ++ l2) s = (forEach body l1 ;; forEach body l2) s.
Proof.
  revert s. induction l1 as [|x l1 IH]; intros s; simpl.
  - reflexivity.
  - unfold mbind, gc_bind, bind.
    destruct (body x s) as [[] s1|f]; [|reflexivity]. apply IH.
Qed.

Lemma takeTask_spec fut q t :
  NoDup q.*1 -> (fut, t) ∈ q ->
  takeTask fut q = Some (t, filter (fun e => e.1 <> fut) q).
Proof.
  induction q as [|[f t0] q IH]; intros Hnd Hin.
  - inversion Hin.
  - rewrite fmap_cons in Hnd. apply NoDup_cons in Hnd as [Hf Hnd].
    cbn [fst] in Hf. cbn [takeTask].
    destruct (decide (f = fut)) as [->|Hne].
    + assert (t0 = t) as ->.
      { apply elem_of_cons in Hin as [E|Hin]; [congruence|].
        exfalso. apply Hf. apply list_elem_of_fmap. now exists (fut, t). }
      rewrite filter_cons_False by (simpl; tauto).
      f_equal. f_equal. symmetry. clear IH Hin Hnd.
      induction q as [|[f1 t1] q IH]; [reflexivity|].
      rewrite fmap_cons, not_elem_of_cons in Hf. destruct Hf as [Hf1 Hf].
      rewrite filter_cons_True by (simpl in *; congruence).
      f_equal. now apply IH.
    + apply elem_of_cons in Hin as [E|Hin]; [congruence|].
      rewrite (IH Hnd Hin).
      rewrite filter_cons_True by (simpl; congruence). reflexivity.
Qed.

Lemma NoDup_filter_ids (P : nat * Task -> Prop) `{!forall e, Decision (P e)}
  (q : list (nat * Task)) :
  NoDup q.*1 -> NoDup (filter P q).*1.
Proof.
  induction q as [|e q IH]; intros Hnd; [constructor|].
  rewrite fmap_cons in Hnd. apply NoDup_cons in Hnd as [He Hnd].
  rewrite filter_cons. destruct (decide (P e)); [|now apply IH].
  rewrite fmap_cons. apply NoDup_cons. split; [|now apply IH].
  intros Hin. apply He. apply list_elem_of_fmap in Hin as (e' & -> & Hin).
  apply list_elem_of_filter in Hin as [_ Hin].
  apply list_elem_of_fmap. now exists e'.
Qed.

Lemma queue_task_unique (q : list (nat * Task)) id t t' :
  NoDup q.*1 -> (id, t) ∈ q -> (id, t') ∈ q -> t = t'.
Proof.
  induction q as [|[f t0] q IH]; intros Hnd H1 H2; [inversion H1|].
  rewrite fmap_cons in Hnd. apply NoDup_cons in Hnd as [Hf Hnd].
  assert (Hout : forall t1, (f, t1) ∈ q -> False).
  { intros t1 Hin. apply Hf. apply list_elem_of_fmap. now exists (f, t1). }
  apply elem_of_cons in H1 as [E1|H1]; apply elem_of_cons in H2 as [E2|H2].
  - congruence.
  - inversion E1; subst. destruct (Hout _ H2).
  - inversion E2; subst. destruct (Hout _ H1).
  - now apply IH.
Qed.

Definition set_taskQueue (q : list (nat * Task)) (s : Runtime) : Runtime :=
  with_pool (fun p => mkPool (work p) q (issued p)) s.

(** Waiting on a future whose task is still queued runs that task, if the
    pool is awake, and blocks otherwise. *)
Lemma get_pending fuel fut t s :
  NoDup (queue s).*1 -> (fut, t) ∈ queue s ->
  get fuel fut s
  = if work (pool s)
    then (runTask fuel t ;; emit (EvGet fut))
           (set_taskQueue (filter (fun e => e.1 <> fut) (queue s)) s)
    else Fail Blocked.
Proof.
  intros Hnd Hin. unfold get. unfold mbind at 1, gc_bind at 1, bind at 1.
  unfold queue in *. rewrite (takeTask_spec _ _ _ Hnd Hin).
  destruct (work (pool s)); reflexivity.
Qed.

Lemma mark_task_keeps_unmarked fuel t :
  is_mark_task t = true -> keeps unmarked (runTask fuel t).
Proof.
  intros Ht. apply respects_mark_task; [apply _| |exact Ht].
  intros ob ab s _ _. reflexivity.
Qed.

Lemma mark_task_le_marks fuel t :
  is_mark_task t = true -> respects le_marks (runTask fuel t).
Proof.
  intros Ht. apply respects_mark_task;
    [apply _|apply le_marks_allows_marking|exact Ht].
Qed.

Lemma awaited_cons id ids s :
  awaited ids
    (log (EvGet id)
       (set_taskQueue (filter (fun e => e.1 <> id) (queue s)) s))
  = awaited (id :: ids) s.
Proof.
  unfold awaited, log, set_taskQueue, with_pool, with_collector, queue, pool.
  simpl. rewrite <- app_assoc. simpl. do 3 f_equal.
  rewrite list_filter_filter. apply list_filter_iff.
  intros e. rewrite not_elem_of_cons. tauto.
Qed.

Lemma filter_none_awaited (q : list (nat * Task)) :
  filter (fun e => e.1 ∉ []) q = q.
Proof.
  induction q as [|e q IH]; [reflexivity|].
  rewrite filter_cons_True by apply not_elem_of_nil. now rewrite IH.
Qed.

(** Waiting, one after another, on distinct futures whose marking tasks
    are all queued: every one of those tasks has run on the heap and class
    table of the start, its marks are in the final mark sets, and apart
    from the marks the state is [awaited]. *)
Lemma gets_mark_tasks fuel ids :
  forall s s',
    NoDup (queue s).*1 -> NoDup ids ->
    (forall id, id ∈ ids ->
                exists t, (id, t) ∈ queue s /\ is_mark_task t = true) ->
    forEach (get fuel) ids s = Done tt s' ->
    unmarked s' = unmarked (awaited ids s) /\
    le_marks s s' /\
    (ids <> [] -> work (pool s) = true) /\
    forall id t, id ∈ ids -> (id, t) ∈ queue s ->
      exists sa sb,
        runTask fuel t sa = Done tt sb /\
        jheap sa = jheap s /\ classTable sa = classTable s /\
        le_marks sb s'.
Proof.
  induction ids as [|id ids IH]; intros s s' Hq Hids Hpend Hrun.
  - simpl in Hrun. inversion Hrun; subst s'. repeat split.
    + destruct s as [h ct [fr fl ob ab cn [w q n]] tn tr].
      unfold unmarked, awaited, set_marks, with_collector, queue, pool.
      simpl. rewrite app_nil_r, filter_none_awaited. reflexivity.
    + reflexivity.
    + reflexivity.
    + congruence.
    + intros id t Hin. inversion Hin.
  - simpl in Hrun. apply bind_Done in Hrun as ([] & s1 & Hget & Hrest).
    destruct (Hpend id) as (t & Hin & Hmark); [left|].
    rewrite (get_pending _ _ _ _ Hq Hin) in Hget.
    destruct (work (pool s)) eqn:Hw; [|discriminate].
    apply bind_Done in Hget as ([] & sb & Htask & Hemit).
    inversion Hemit; subst s1; clear Hemit.
    set (s0 := set_taskQueue _ s) in Htask.
    pose proof (mark_task_keeps_unmarked fuel t Hmark _ _ _ Htask) as Hsame.
    pose proof (mark_task_le_marks fuel t Hmark _ _ _ Htask) as Hle.
    unfold same in Hsame.
    assert (Hqb : queue sb = filter (fun e => e.1 <> id) (queue s))
      by exact (f_equal queue Hsame).
    apply NoDup_cons in Hids as [Hid Hids].
    destruct (IH (log (EvGet id) sb) s') as (Hun & Hle' & _ & Hall);
      try assumption.
    { change (queue (log (EvGet id) sb)) with (queue sb). rewrite Hqb.
      now apply NoDup_filter_ids. }
    { intros id' Hin'. destruct (Hpend id') as (t' & Hin'' & Hm');
        [now right|].
      exists t'. split; [|exact Hm'].
      change (queue (log (EvGet id) sb)) with (queue sb). rewrite Hqb.
      apply list_elem_of_filter. split; [|exact Hin'']. simpl. congruence. }
    split; [|split; [|split; [reflexivity|]]].
    + rewrite Hun. rewrite <- awaited_cons. fold s0.
      change (unmarked (awaited ids (log (EvGet id) sb)))
        with (awaited ids (log (EvGet id) (unmarked sb))).
      rewrite Hsame. reflexivity.
    + transitivity sb; [exact Hle|exact Hle'].
    + intros id' t' Hin' Hq'.
      apply elem_of_cons in Hin' as [->|Hin'].
      * assert (t' = t) as -> by (eapply queue_task_unique; eassumption).
        exists s0, sb. repeat split; [exact Htask|apply Hle'|apply Hle'].
      * destruct (Hall id' t' Hin') as (sa & sb' & Hr & Hh & Hc & Hl).
        { change (queue (log (EvGet id) sb)) with (queue sb). rewrite Hqb.
          apply list_elem_of_filter. split; [|exact Hq']. simpl.
          intros ->. contradiction. }
        exists sa, sb'. repeat split; try apply Hl; try exact Hr.
        -- rewrite Hh. exact (f_equal jheap Hsame).
        -- rewrite Hc. exact (f_equal classTable Hsame).
Qed.

(** ** The marking phase *)

(** The tasks of one marking phase whose first future is [n], and the
    futures the coordinator waits on, in its order. *)
Definition mark_queue (n : nat) (top : list Frame) : list (nat * Task) :=
  frame_queue n top ++ [((n + 2 * length top)%nat, StaticFieldsTask)].

Definition mark_futures (n : nat) (top : list Frame) : list nat :=
  (n + 2 * length top)%nat :: stack_futures n top ++ local_futures n top.

Lemma mark_queue_ids n top :
  (mark_queue n top).*1 = seq n (S (2 * length top)).
Proof.
  unfold mark_queue. rewrite fmap_app, frame_queue_ids, seq_S. reflexivity.
Qed.

Lemma mark_futures_perm n top :
  mark_futures n top ≡ₚ (mark_queue n top).*1.
Proof.
  unfold mark_futures, mark_queue. rewrite fmap_app, frame_futures_perm.
  simpl. apply Permutation_cons_append.
Qed.

Lemma mark_queue_awaited n top e :
  e ∈ mark_queue n top -> e.1 ∈ mark_futures n top.
Proof.
  intros H. rewrite mark_futures_perm. now apply list_elem_of_fmap_2.
Qed.

Lemma mark_queue_mark_tasks n top e :
  e ∈ mark_queue n top -> is_mark_task e.2 = true.
Proof.
  unfold mark_queue. rewrite elem_of_app, list_elem_of_singleton.
  intros [H| ->]; [eapply frame_queue_mark_tasks, H|reflexivity].
Qed.

Lemma markPhase_gets fuel s top :
  frames (collector s) = Some top ->
  markPhase fuel s
  = forEach (get fuel) (mark_futures (issued (pool s)) top)
      (submitted (mark_queue (issued (pool s)) top) s).
Proof.
  intros Hfr. unfold markPhase.
  rewrite (bind_run _ _ _ (Some top) s) by (unfold read; now rewrite Hfr).
  rewrite (bind_run _ _ _ top s eq_refl).
  rewrite (bind_run _ _ _ _ _ (submitFrames_spec _ _)).
  rewrite (bind_run _ _ _ _ _ (submit_spec _ _)).
  rewrite submitted_app.
  replace (issued (pool (submitted (frame_queue (issued (pool s)) top) s)))
    with (issued (pool s) + 2 * length top)%nat
    by (unfold submitted, pool; simpl; now rewrite length_frame_queue).
  fold (mark_queue (issued (pool s)) top).
  unfold mark_futures. cbn [forEach fst snd].
  unfold mbind, gc_bind, bind.
  destruct (get fuel _ _) as [[] s1|f]; [|reflexivity].
  symmetry. apply forEach_app.
Qed.

(** A marking phase that returns, started with an empty queue: all its
    tasks were submitted and awaited, each of them has run on the heap and
    class table of the start with its marks kept to the end, and nothing
    but the mark sets, the pool and the trace has changed. *)
Lemma markPhase_spec fuel s s1 top :
  queue s = [] -> frames (collector s) = Some top ->
  markPhase fuel s = Done tt s1 ->
  unmarked s1
  = unmarked (awaited (mark_futures (issued (pool s)) top)
                (submitted (mark_queue (issued (pool s)) top) s)) /\
  le_marks s s1 /\
  work (pool s) = true /\
  forall e, e ∈ mark_queue (issued (pool s)) top ->
    exists sa sb,
      runTask fuel e.2 sa = Done tt sb /\
      jheap sa = jheap s /\ classTable sa = classTable s /\
      le_marks sb s1.
Proof.
  intros Hq Hfr Hrun. rewrite (markPhase_gets _ _ _ Hfr) in Hrun.
  set (n := issued (pool s)) in *.
  set (s3 := submitted (mark_queue n top) s) in *.
  assert (Hq3 : queue s3 = mark_queue n top)
    by (unfold s3, submitted, queue, pool in *; simpl; now rewrite Hq).
  destruct (gets_mark_tasks fuel (mark_futures n top) s3 s1)
    as (Hun & Hle & Hw & Hall); try assumption.
  - rewrite Hq3, mark_queue_ids. apply NoDup_seq.
  - rewrite mark_futures_perm, mark_queue_ids. apply NoDup_seq.
  - intros id Hid. rewrite mark_futures_perm in Hid.
    apply list_elem_of_fmap in Hid as ([id' t] & -> & Hin).
    exists t. rewrite Hq3. split; [exact Hin|].
    apply (mark_queue_mark_tasks _ _ _ Hin).
  - repeat split; try assumption; try apply Hle.
    + apply Hw. discriminate.
    + intros [id t] Hin.
      destruct (Hall id t) as (sa & sb & Hr & Hh & Hc & Hl).
      * apply (mark_queue_awaited _ _ _ Hin).
      * now rewrite Hq3.
      * exists sa, sb. repeat split; try assumption; apply Hl.
Qed.

(** ** The sweep phase *)

(** The events of one [sweep] whose first future is [n]. *)
Definition sweep_events (n : nat) : list Event :=
  [EvSubmit n ObjectSweepTask; EvSubmit (S n) ArraySweepTask;
   EvSubmit (S (S n)) MonitorSweepTask;
   EvGet n; EvGet (S n); EvGet (S (S n))].

(** What each sweep task does to the state. *)
Definition sweepObjects (s : Runtime) : Runtime :=
  with_heap
    (fun h => set_objectContainer
                (sweepContainer
                   (fun k => bool_decide (k ∈ objectBitmap (collector s)))
                   (objectContainer h)) h) s.

Definition sweepArrays (s : Runtime) : Runtime :=
  with_heap
    (fun h => set_arrayContainer
                (sweepContainer
                   (fun k => bool_decide (k ∈ arrayBitmap (collector s)))
                   (arrayContainer h)) h) s.

Definition sweepMonitors (s : Runtime) : Runtime :=
  with_heap
    (fun h => set_monitorContainer
                (sweepContainer
                   (fun k => negb (bool_decide (k ∉ objectBitmap (collector s))
                                   || bool_decide (k ∉ arrayBitmap (collector s))))
                   (monitorContainer h)) h) s.

Lemma runTask_ObjectSweepTask fuel s :
  runTask fuel ObjectSweepTask s = Done tt (sweepObjects s).
Proof. reflexivity. Qed.

Lemma runTask_ArraySweepTask fuel s :
  runTask fuel ArraySweepTask s = Done tt (sweepArrays s).
Proof. reflexivity. Qed.

Lemma runTask_MonitorSweepTask fuel s :
  runTask fuel MonitorSweepTask s = Done tt (sweepMonitors s).
Proof. reflexivity. Qed.

(** Waiting on the future at the head of the queue. *)
Lemma get_head fuel fut t q s s1 :
  queue s = (fut, t) :: q -> work (pool s) = true ->
  runTask fuel t (set_taskQueue q s) = Done tt s1 ->
  get fuel fut s = Done tt (log (EvGet fut) s1).
Proof.
  intros Hq Hw Hrun. unfold get. unfold mbind at 1, gc_bind at 1, bind at 1.
  unfold queue in Hq. rewrite Hq. cbn [takeTask].
  rewrite decide_True by reflexivity. rewrite Hw.
  unfold set_taskQueue in Hrun. rewrite Hrun. reflexivity.
Qed.

(** The state after the three sweep tasks, queued from future [n] on, have
    been awaited. *)
Definition swept (n : nat) (s : Runtime) : Runtime :=
  log (EvGet (S (S n)))
    (sweepMonitors
       (set_taskQueue []
          (log (EvGet (S n))
             (sweepArrays
                (set_taskQueue [(S (S n), MonitorSweepTask)]
                   (log (EvGet n)
                      (sweepObjects
                         (set_taskQueue
                            [(S n, ArraySweepTask);
                             (S (S n), MonitorSweepTask)] s)))))))).

Lemma sweep_gets fuel n s :
  queue s = [(n, ObjectSweepTask); (S n, ArraySweepTask);
             (S (S n), MonitorSweepTask)] ->
  work (pool s) = true ->
  (get fuel n ≫= fun _ => get fuel (S n) ≫= fun _ => get fuel (S (S n))) s
  = Done tt (swept n s).
Proof.
  intros Hq Hw.
  rewrite (bind_run _ _ _ tt _
             (get_head fuel n _ _ s _ Hq Hw (runTask_ObjectSweepTask _ _))).
  match goal with
  | |- (_ ≫= _) ?s1 = _ =>
      assert (Hq1 : queue s1 = [(S n, ArraySweepTask);
                                (S (S n), MonitorSweepTask)]) by reflexivity;
      assert (Hw1 : work (pool s1) = true) by exact Hw;
      rewrite (bind_run _ _ _ tt _
                 (get_head fuel (S n) _ _ s1 _ Hq1 Hw1
                    (runTask_ArraySweepTask _ _)))
  end.
  match goal with
  | |- get _ _ ?s2 = _ =>
      assert (Hq2 : queue s2 = [(S (S n), MonitorSweepTask)]) by reflexivity;
      assert (Hw2 : work (pool s2) = true) by exact Hw;
      exact (get_head fuel (S (S n)) _ _ s2 _ Hq2 Hw2
               (runTask_MonitorSweepTask _ _))
  end.
Qed.

(** The state in which [sweep] returns. *)
Definition sweep_result (s : Runtime) : Runtime :=
  let n := issued (pool s) in
  swept n (submitted [(n, ObjectSweepTask); (S n, ArraySweepTask);
                      (S (S n), MonitorSweepTask)] s).

(** With the pool awake and nothing pending, [sweep] returns, and its
    result is [sweep_result]. *)
Lemma sweep_spec fuel s :
  queue s = [] -> work (pool s) = true ->
  sweep fuel s = Done tt (sweep_result s).
Proof.
  intros Hq Hw. unfold sweep.
  rewrite (bind_run _ _ _ _ _ (submit_spec _ _)).
  rewrite (bind_run _ _ _ _ _ (submit_spec _ _)).
  rewrite (bind_run _ _ _ _ _ (submit_spec _ _)).
  rewrite !submitted_app.
  set (n := issued (pool s)).
  assert (E1 : issued (pool (submitted [(n, ObjectSweepTask)] s)) = S n)
    by (unfold submitted, pool; simpl; fold (pool s); fold n; lia).
  rewrite E1.
  assert (E2 : issued (pool (submitted ([(n, ObjectSweepTask)]
                                        ++ [(S n, ArraySweepTask)]) s))
               = S (S n))
    by (unfold submitted, pool; simpl; fold (pool s); fold n; lia).
  rewrite E2. simpl app.
  apply sweep_gets.
  - unfold submitted, queue, pool in *. simpl. now rewrite Hq.
  - exact Hw.
Qed.

Lemma sweep_result_jheap s : jheap (sweep_result s) = swept_heap s.
Proof. reflexivity. Qed.

Lemma sweep_result_trace s :
  trace (sweep_result s) = trace s ++ sweep_events (issued (pool s)).
Proof.
  unfold sweep_result, swept, log. cbn [trace].
  unfold sweepMonitors, with_heap. cbn [trace].
  unfold set_taskQueue, with_pool, with_collector. cbn [trace].
  unfold sweepArrays, with_heap. cbn [trace].
  unfold sweepObjects, with_heap. cbn [trace].
  unfold submitted. cbn [trace map fst snd].
  unfold sweep_events. rewrite <- !app_assoc. reflexivity.
Qed.

Lemma sweep_result_queue s : queue (sweep_result s) = [].
Proof. reflexivity. Qed.

Lemma sweep_result_marks s :
  objectBitmap (collector (sweep_result s)) = objectBitmap (collector s) /\
  arrayBitmap (collector (sweep_result s)) = arrayBitmap (collector s).
Proof. split; reflexivity. Qed.

(** A monitor entry survives [sweep] exactly when its offset is in both
    mark sets. *)
Lemma sweep_monitor_lookup fuel s k :
  queue s = [] -> work (pool s) = true ->
  exists s',
    sweep fuel s = Done tt s' /\
    monitorContainer (jheap s') !! k
    = if bool_decide (k ∈ objectBitmap (collector s)
                      /\ k ∈ arrayBitmap (collector s))
      then monitorContainer (jheap s) !! k
      else None.
Proof.
  intros Hq Hw. exists (sweep_result s). split; [now apply sweep_spec|].
  rewrite sweep_result_jheap. unfold swept_heap. cbn [monitorContainer].
  rewrite sweepContainer_lookup.
  repeat case_bool_decide; simpl; try reflexivity; exfalso; tauto.
Qed.

(** Object 1 is live and marked, and has a monitor; no array is marked.
    The collector is about to sweep. *)
Definition monitor_runtime : Runtime :=
  mkRuntime
    (mkJavaHeap {[ 1%N := [] ]} ∅ {[ 1%N := MkObjectMonitor ]})
    []
    (mkGC (Some []) true {[ 1%N ]} ∅ 0 (mkPool true [] 0))
    1 [].

(** C2, on the code: the monitor of offset 1, which is in the object mark
    set and not in the array mark set, is erased by [sweep], while the
    object itself is kept. *)
Theorem sweep_erases_monitor_of_marked_object :
  1%N ∈ objectBitmap (collector monitor_runtime) /\
  (1%N ∉ arrayBitmap (collector monitor_runtime)) /\
  monitorContainer (jheap monitor_runtime) !! 1%N = Some MkObjectMonitor /\
  exists s',
    sweep 0 monitor_runtime = Done tt s' /\
    monitorContainer (jheap s') !! 1%N = None /\
    objectContainer (jheap s') !! 1%N = Some [].
Proof.
  split; [change (1%N ∈ ({[ 1%N ]} : gset N)); now apply elem_of_singleton|].
  split; [change (1%N ∉ (∅ : gset N)); apply not_elem_of_empty|].
  split; [vm_compute; reflexivity|].
  exists (sweep_result monitor_runtime).
  split; [apply sweep_spec; reflexivity|].
  split; vm_compute; reflexivity.
Qed.

(** ** Ordering of the two phases *)

Lemma filter_all_awaited (ids : list nat) (q : list (nat * Task)) :
  (forall e, e ∈ q -> e.1 ∈ ids) -> filter (fun e => e.1 ∉ ids) q = [].
Proof.
  induction q as [|e q IH]; intros H; [reflexivity|].
  rewrite filter_cons_False.
  - apply IH. intros e' He'. apply H. now right.
  - intros Hn. apply Hn, H. now left.
Qed.

Lemma frame_queue_covers n top fr :
  fr ∈ top ->
  StackMarkTask fr ∈ (frame_queue n top).*2 /\
  LocalMarkTask fr ∈ (frame_queue n top).*2.
Proof.
  revert n. induction top as [|fr0 next IH]; intros n H; [inversion H|].
  cbn [frame_queue]. rewrite !fmap_cons. cbn [snd].
  apply elem_of_cons in H as [->|H].
  - split; [now left|right; now left].
  - destruct (IH (S (S n)) H) as [H1 H2].
    split; right; right; assumption.
Qed.

(** The state in which [markAndSweep] calls [sweep]: the marking phase
    has left the queue empty and the pool awake, and its trace is the
    submissions followed by the waits. *)
Lemma markPhase_done fuel s s1 top :
  queue s = [] -> frames (collector s) = Some top ->
  markPhase fuel s = Done tt s1 ->
  queue s1 = [] /\ work (pool s1) = true /\
  jheap s1 = jheap s /\ classTable s1 = classTable s /\
  trace s1
  = trace s
    ++ map (fun e => EvSubmit e.1 e.2) (mark_queue (issued (pool s)) top)
    ++ map EvGet (mark_futures (issued (pool s)) top).
Proof.
  intros Hq Hfr Hrun.
  destruct (markPhase_spec _ _ _ _ Hq Hfr Hrun) as (Hun & _ & Hw & _).
  repeat split.
  - transitivity (queue (unmarked s1)); [reflexivity|]. rewrite Hun.
    unfold unmarked, awaited, submitted, set_marks, with_collector, queue, pool.
    cbn [taskQueue gcThreadPool collector]. fold (pool s). fold (queue s).
    rewrite Hq. apply filter_all_awaited. intros e He.
    now apply mark_queue_awaited.
  - transitivity (work (pool (unmarked s1))); [reflexivity|]. rewrite Hun.
    exact Hw.
  - exact (f_equal jheap Hun).
  - exact (f_equal classTable Hun).
  - transitivity (trace (unmarked s1)); [reflexivity|]. rewrite Hun.
    unfold unmarked, awaited, submitted, set_marks, with_collector.
    cbn [trace]. now rewrite app_assoc.
Qed.

(** C7: in a [markAndSweep] that returns, [sweep] is invoked in a state
    [s1] where every marking task (one for the stack slots and one for the
    local slots of each frame, and the static-field task) has been
    submitted and its future waited on: the trace up to [s1] is those
    submissions followed by a wait on every one of their futures, nothing
    is left in the pool's queue, and the events of [sweep] come after. *)
Theorem sweep_starts_after_marking_awaited
  (fuel : nat) (s s' : Runtime) (top : list Frame) :
  queue s = [] -> frames (collector s) = Some top ->
  markAndSweep fuel s = Done tt s' ->
  exists s1,
    markPhase fuel s = Done tt s1 /\ sweep fuel s1 = Done tt s' /\
    trace s1
    = trace s
      ++ map (fun e => EvSubmit e.1 e.2) (mark_queue (issued (pool s)) top)
      ++ map EvGet (mark_futures (issued (pool s)) top) /\
    (forall fr, fr ∈ top ->
       StackMarkTask fr ∈ (mark_queue (issued (pool s)) top).*2 /\
       LocalMarkTask fr ∈ (mark_queue (issued (pool s)) top).*2) /\
    StaticFieldsTask ∈ (mark_queue (issued (pool s)) top).*2 /\
    (forall e, e ∈ mark_queue (issued (pool s)) top ->
       e.1 ∈ mark_futures (issued (pool s)) top) /\
    queue s1 = [] /\
    trace s' = trace s1 ++ sweep_events (issued (pool s1)).
Proof.
  intros Hq Hfr Hrun. unfold markAndSweep in Hrun.
  apply bind_Done in Hrun as ([] & s1 & Hmark & Hsweep).
  destruct (markPhase_done _ _ _ _ Hq Hfr Hmark) as (Hq1 & Hw1 & _ & _ & Htr).
  exists s1. split; [exact Hmark|]. split; [exact Hsweep|].
  split; [exact Htr|].
  split; [|split; [|split; [|split; [exact Hq1|]]]].
  - intros fr Hin. unfold mark_queue. rewrite fmap_app.
    destruct (frame_queue_covers (issued (pool s)) top fr Hin) as [H1 H2].
    split; apply elem_of_app; left; assumption.
  - unfold mark_queue. rewrite fmap_app. apply elem_of_app. right.
    now left.
  - intros e. apply mark_queue_awaited.
  - rewrite (sweep_spec _ _ Hq1 Hw1) in Hsweep. inversion Hsweep.
    apply sweep_result_trace.
Qed.

(** ** Roots, marks and survival *)

(** The roots: what the slots of the frames and the static fields of the
    classes refer to. *)
Definition frame_root (top : list Frame) (v : JType) : Prop :=
  exists fr i,
    fr ∈ top /\
    (((i < Z.to_nat (maxStack fr))%nat /\ stackSlots fr !! i = Some (Some v)) \/
     ((i < Z.to_nat (maxLocal fr))%nat /\ localSlots fr !! i = Some (Some v))).

Definition static_root (classes : list JavaClass) (v : JType) : Prop :=
  exists c k, c ∈ classes /\ (k, Some v) ∈ staticVars c.

(** A heap value is marked when its offset is in the mark set of its kind,
    and present when its container has an entry for its offset. *)
Definition marked (s : Runtime) (v : JType) : Prop :=
  match v with
  | JObject offset => offset ∈ objectBitmap (collector s)
  | JArray offset => offset ∈ arrayBitmap (collector s)
  | JPrimitive => False
  end.

Definition present (h : JavaHeap) (v : JType) : Prop :=
  match v with
  | JObject offset => is_Some (objectContainer h !! offset)
  | JArray offset => is_Some (arrayContainer h !! offset)
  | JPrimitive => False
  end.

(** What marking does to a state: heap and class table stay, marks grow. *)
Definition marking_step : relation Runtime :=
  fun s s' =>
    jheap s' = jheap s /\ classTable s' = classTable s /\ le_marks s s'.

Global Instance marking_step_preorder : PreOrder marking_step.
Proof.
  split.
  - intros s. repeat split; reflexivity.
  - intros s1 s2 s3 (Hh1 & Hc1 & Hl1) (Hh2 & Hc2 & Hl2).
    repeat split; try congruence; try (etransitivity; [apply Hl1|apply Hl2]).
Qed.

Lemma marking_step_allows_marking : allows_marking marking_step.
Proof. intros ob ab s Ho Ha. repeat split; assumption. Qed.

Lemma marked_le_marks s s' v : le_marks s s' -> marked s v -> marked s' v.
Proof.
  intros [Ho Ha]. destruct v; simpl; [apply Ho|apply Ha|tauto].
Qed.

(** Every iteration of a loop that returns has run, between two states
    related to the ends of the loop. *)
Lemma forEach_elem (R : relation Runtime) `{!PreOrder R}
  {A} (body : A -> M unit) l s s' x :
  (forall y, respects R (body y)) ->
  forEach body l s = Done tt s' -> x ∈ l ->
  exists sa sb, body x sa = Done tt sb /\ R s sa /\ R sb s'.
Proof.
  intros Hb. revert s. induction l as [|y l IH]; intros s Hrun Hin.
  - inversion Hin.
  - simpl in Hrun. apply bind_Done in Hrun as ([] & s1 & Hy & Hrest).
    apply elem_of_cons in Hin as [->|Hin].
    + exists s, s1. repeat split; [exact Hy|reflexivity|].
      eapply (respects_forEach R), Hrest. exact Hb.
    + destruct (IH _ Hrest Hin) as (sa & sb & Hx & Hsa & Hsb).
      exists sa, sb. repeat split; [exact Hx| |exact Hsb].
      transitivity s1; [eapply Hb, Hy|exact Hsa].
Qed.

(** [mark], when it returns, has marked the whole closure of its
    argument, and all of it is present in the heap. *)
Lemma mark_reaches fuel :
  forall v s s',
    mark fuel (Some v) s = Done tt s' ->
    forall w, reachable (jheap s) v w ->
              marked s' w /\ present (jheap s) w.
Proof.
  assert (Hmark : forall fuel r, respects marking_step (mark fuel r))
    by (intros; apply respects_mark;
        [apply _|apply marking_step_allows_marking]).
  induction fuel as [|fuel IH]; intros [o|o|] s s' Hrun w Hreach;
    try discriminate.
  - (* object *)
    rewrite mark_object in Hrun.
    apply bind_Done in Hrun as ([] & s1 & Hins & Hrun).
    apply bind_Done in Hrun as (fields & s1' & Hf & Hrun).
    apply getFields_Done in Hf as [-> Ho].
    assert (Hh1 : jheap s1 = jheap s) by (eapply insertObjectBitmap_jheap, Hins).
    assert (Hm1 : marked s1 (JObject o)).
    { inversion Hins; subst s1. simpl. apply elem_of_union. left.
      now apply elem_of_singleton. }
    pose proof (respects_forEach marking_step (mark fuel) fields
                  (Hmark fuel) _ _ _ Hrun) as (_ & _ & Hle).
    rewrite Hh1 in Ho.
    apply rtc_inv in Hreach as [<-|(y & Hpt & Hreach)].
    + split; [eapply marked_le_marks; eassumption|]. simpl. now rewrite Ho.
    + inversion Hpt as [o' fields' y' Ho' Hin|]; subst.
      rewrite Ho in Ho'. inversion Ho'; subst fields'.
      destruct (forEach_elem marking_step (mark fuel) fields s1 s' (Some y)
                  (Hmark fuel) Hrun Hin)
        as (sa & sb & Hy & (Hha & _ & _) & (_ & _ & Hlb)).
      assert (Hsa : jheap sa = jheap s) by congruence.
      rewrite <- Hsa in Hreach.
      destruct (IH _ _ _ Hy w Hreach) as [Hmw Hpw].
      split; [eapply marked_le_marks; eassumption|]. now rewrite <- Hsa.
  - (* array *)
    rewrite mark_array in Hrun.
    apply bind_Done in Hrun as ([] & s1 & Hins & Hrun).
    apply bind_Done in Hrun as ([len elems] & s1' & Hf & Hrun).
    apply getElements_Done in Hf as [-> Ho]. cbn [fst snd] in Hrun.
    assert (Hh1 : jheap s1 = jheap s) by (eapply insertArrayBitmap_jheap, Hins).
    assert (Hm1 : marked s1 (JArray o)).
    { inversion Hins; subst s1. simpl. apply elem_of_union. left.
      now apply elem_of_singleton. }
    assert (Hbody : forall i,
               respects marking_step
                 (r ← readSlot elems i ; mark fuel r)).
    { intros i. apply respects_bind;
        [apply _|apply respects_readSlot, _|intros r; apply Hmark]. }
    pose proof (respects_forEach marking_step _ _ Hbody _ _ _ Hrun)
      as (_ & _ & Hle).
    rewrite Hh1 in Ho.
    apply rtc_inv in Hreach as [<-|(y & Hpt & Hreach)].
    + split; [eapply marked_le_marks; eassumption|]. simpl. now rewrite Ho.
    + inversion Hpt as [|o' len' elems' i y' Ho' Hi Hy']; subst.
      rewrite Ho in Ho'. inversion Ho'; subst len' elems'.
      assert (Hin : i ∈ seq 0 (N.to_nat len)) by (apply elem_of_seq; lia).
      destruct (forEach_elem marking_step _ _ s1 s' i Hbody Hrun Hin)
        as (sa & sb & Hy & (Hha & _ & _) & (_ & _ & Hlb)).
      apply bind_Done in Hy as (r & sa' & Hr & Hy).
      apply readSlot_Done in Hr as [-> Hr]. rewrite Hy' in Hr.
      inversion Hr; subst r.
      assert (Hsa : jheap sa = jheap s) by congruence.
      rewrite <- Hsa in Hreach.
      destruct (IH _ _ _ Hy w Hreach) as [Hmw Hpw].
      split; [eapply marked_le_marks; eassumption|]. now rewrite <- Hsa.
Qed.

(** A frame's two marking tasks mark the closure of each reference in
    the slots they scan. *)
Lemma frame_task_reaches fuel fr i v sa sb w :
  (((i < Z.to_nat (maxStack fr))%nat /\ stackSlots fr !! i = Some (Some v) /\
    runTask fuel (StackMarkTask fr) sa = Done tt sb) \/
   ((i < Z.to_nat (maxLocal fr))%nat /\ localSlots fr !! i = Some (Some v) /\
    runTask fuel (LocalMarkTask fr) sa = Done tt sb)) ->
  reachable (jheap sa) v w ->
  marked sb w /\ present (jheap sa) w.
Proof.
  assert (Hmark : forall r, respects marking_step (mark fuel r))
    by (intros; apply respects_mark;
        [apply _|apply marking_step_allows_marking]).
  assert (Hbody : forall slots j,
             respects marking_step (r ← readSlot slots j ; mark fuel r)).
  { intros slots j. apply respects_bind;
      [apply _|apply respects_readSlot, _|intros r; apply Hmark]. }
  assert (Hloop : forall slots n,
             (i < n)%nat -> slots !! i = Some (Some v) ->
             forEach (fun j => r ← readSlot slots j ; mark fuel r)
                     (seq 0 n) sa = Done tt sb ->
             reachable (jheap sa) v w ->
             marked sb w /\ present (jheap sa) w).
  { intros slots n Hi Hslot Hrun Hreach.
    assert (Hin : i ∈ seq 0 n) by (apply elem_of_seq; lia).
    destruct (forEach_elem marking_step _ _ sa sb i (Hbody slots) Hrun Hin)
      as (s1 & s2 & Hy & (Hh1 & _ & _) & (_ & _ & Hl2)).
    apply bind_Done in Hy as (r & s1' & Hr & Hy).
    apply readSlot_Done in Hr as [-> Hr]. rewrite Hslot in Hr.
    inversion Hr; subst r. rewrite <- Hh1 in Hreach.
    destruct (mark_reaches _ _ _ _ Hy w Hreach) as [Hm Hp].
    split; [eapply marked_le_marks; eassumption|]. now rewrite <- Hh1. }
  intros [(Hi & Hslot & Hrun)|(Hi & Hslot & Hrun)] Hreach;
    eapply Hloop; eassumption.
Qed.

(** After the marking phase, the closure of every frame root is marked
    and present. *)
Lemma markPhase_reaches fuel s s1 top v w :
  queue s = [] -> frames (collector s) = Some top ->
  markPhase fuel s = Done tt s1 ->
  frame_root top v -> reachable (jheap s) v w ->
  marked s1 w /\ present (jheap s) w.
Proof.
  intros Hq Hfr Hrun (fr & i & Hin & Hslot) Hreach.
  destruct (markPhase_spec _ _ _ _ Hq Hfr Hrun) as (_ & _ & _ & Hall).
  destruct (frame_queue_covers (issued (pool s)) top fr Hin) as [Hst Hlo].
  assert (Htask : forall t,
             t ∈ (frame_queue (issued (pool s)) top).*2 ->
             exists sa sb, runTask fuel t sa = Done tt sb /\
                           jheap sa = jheap s /\ le_marks sb s1).
  { intros t Ht. apply list_elem_of_fmap in Ht as (e & -> & He).
    destruct (Hall e) as (sa & sb & Hr & Hh & _ & Hl).
    - unfold mark_queue. apply elem_of_app. now left.
    - now exists sa, sb. }
  destruct Hslot as [[Hi Hs]|[Hi Hs]].
  - destruct (Htask _ Hst) as (sa & sb & Hr & Hh & Hl).
    rewrite <- Hh in Hreach.
    destruct (frame_task_reaches fuel fr i v sa sb w) as [Hm Hp]; auto.
    split; [eapply marked_le_marks; eassumption|]. now rewrite <- Hh.
  - destruct (Htask _ Hlo) as (sa & sb & Hr & Hh & Hl).
    rewrite <- Hh in Hreach.
    destruct (frame_task_reaches fuel fr i v sa sb w) as [Hm Hp]; auto 6.
    split; [eapply marked_le_marks; eassumption|]. now rewrite <- Hh.
Qed.

(** The entry of a heap value, in the container of its kind. *)
Definition entry (h : JavaHeap) (v : JType)
  : option (list (option JType) + N * list (option JType)) :=
  match v with
  | JObject offset => inl <$> objectContainer h !! offset
  | JArray offset => inr <$> arrayContainer h !! offset
  | JPrimitive => None
  end.

(** [sweep] leaves the entry of every marked heap value as it is. *)
Lemma sweep_keeps_marked s w :
  marked s w -> entry (swept_heap s) w = entry (jheap s) w.
Proof.
  destruct w as [o|o|]; simpl; intros Hm; [| |reflexivity];
    rewrite sweepContainer_lookup, bool_decide_true by exact Hm;
    reflexivity.
Qed.

(** X1: reachability soundness for the roots in the frames: when a
    collecting [gc], entered with an empty pool queue, returns, every heap
    value in the closure of a stack slot or local slot of the frame chain
    was present in the heap and still has its entry, unchanged. *)
Theorem gc_retains_frame_reachable
  (fuel : nat) (fr : JavaFrame) (policy : GCPolicy) (s s' : Runtime)
  (v w : JType) :
  overMemoryThreshold (collector s) = true -> queue s = [] ->
  gc fuel (Some fr) policy s = Done tt s' ->
  frame_root fr v -> reachable (jheap s) v w ->
  present (jheap s) w /\ entry (jheap s') w = entry (jheap s) w.
Proof.
  intros Hover Hq Hgc Hroot Hreach.
  destruct (gc_flag_set_Done _ _ _ _ _ Hover Hgc) as (s2 & Hms & ->).
  unfold markAndSweep in Hms.
  apply bind_Done in Hms as ([] & s1 & Hmark & Hsweep).
  assert (Hq0 : queue (gc_start (Some fr) s) = []) by exact Hq.
  assert (Hfr0 : frames (collector (gc_start (Some fr) s)) = Some fr)
    by reflexivity.
  destruct (markPhase_done _ _ _ _ Hq0 Hfr0 Hmark) as (Hq1 & Hw1 & Hh1 & _).
  destruct (markPhase_reaches _ _ _ _ v w Hq0 Hfr0 Hmark Hroot Hreach)
    as [Hm Hp].
  rewrite (sweep_spec _ _ Hq1 Hw1) in Hsweep. inversion Hsweep; subst s2.
  split; [exact Hp|].
  change (jheap (gc_finish (sweep_result s1))) with (swept_heap s1).
  rewrite (sweep_keeps_marked _ _ Hm). now rewrite Hh1.
Qed.

(** ** Independence of the schedule *)

(** The marks of [s'] added to the state [s]. *)
Definition add_marks (s' s : Runtime) : Runtime :=
  set_marks (objectBitmap (collector s') ∪ objectBitmap (collector s))
            (arrayBitmap (collector s') ∪ arrayBitmap (collector s)) s.

(** [adds_marks c]: what [c] does is to add, to whatever mark sets it
    finds, the marks it would add to empty ones; it fails exactly when it
    fails on empty ones. *)
Definition adds_marks (c : M unit) : Prop :=
  forall s,
    c s = match c (unmarked s) with
          | Done _ s' => Done tt (add_marks s' s)
          | Fail f => Fail f
          end.

Lemma set_marks_same s :
  set_marks (objectBitmap (collector s)) (arrayBitmap (collector s)) s = s.
Proof. destruct s as [h ct [fr fl ob ab cn p] tn tr]. reflexivity. Qed.

Lemma add_marks_assoc s2 s1 s :
  add_marks s2 (add_marks s1 s) = add_marks (add_marks s2 s1) s.
Proof.
  unfold add_marks, set_marks, with_collector.
  cbn [collector objectBitmap arrayBitmap set_arrayBitmap set_objectBitmap
       jheap classTable threadNum trace frames overMemoryThreshold
       safepointWaitCnt gcThreadPool].
  now rewrite !(assoc_L (∪)).
Qed.

Lemma add_marks_comm s2 s1 s :
  add_marks s2 (add_marks s1 s) = add_marks s1 (add_marks s2 s).
Proof.
  unfold add_marks, set_marks, with_collector.
  cbn [collector objectBitmap arrayBitmap set_arrayBitmap set_objectBitmap
       jheap classTable threadNum trace frames overMemoryThreshold
       safepointWaitCnt gcThreadPool].
  rewrite !(assoc_L (∪)).
  rewrite (comm_L (∪) (objectBitmap (collector s2))).
  rewrite (comm_L (∪) (arrayBitmap (collector s2))). reflexivity.
Qed.

Lemma adds_marks_ret : adds_marks (mret tt).
Proof.
  intros s. unfold mret, gc_ret, ret, add_marks.
  cbn [unmarked set_marks with_collector collector objectBitmap arrayBitmap
       set_arrayBitmap set_objectBitmap].
  rewrite !(left_id_L ∅ (∪)). now rewrite set_marks_same.
Qed.

Lemma adds_marks_fail f : adds_marks (fail f).
Proof. intros s. reflexivity. Qed.

Lemma adds_marks_insertObjectBitmap offset :
  adds_marks (insertObjectBitmap offset).
Proof.
  intros s. unfold insertObjectBitmap, modify, add_marks, set_marks,
    with_collector.
  cbn [unmarked set_marks with_collector collector objectBitmap arrayBitmap
       set_arrayBitmap set_objectBitmap jheap classTable threadNum trace
       frames overMemoryThreshold safepointWaitCnt gcThreadPool].
  rewrite (right_id_L ∅ (∪)), (left_id_L ∅ (∪)). reflexivity.
Qed.

Lemma adds_marks_insertArrayBitmap offset :
  adds_marks (insertArrayBitmap offset).
Proof.
  intros s. unfold insertArrayBitmap, modify, add_marks, set_marks,
    with_collector.
  cbn [unmarked set_marks with_collector collector objectBitmap arrayBitmap
       set_arrayBitmap set_objectBitmap jheap classTable threadNum trace
       frames overMemoryThreshold safepointWaitCnt gcThreadPool].
  rewrite (right_id_L ∅ (∪)), (left_id_L ∅ (∪)). reflexivity.
Qed.

Lemma adds_marks_seq (c1 c2 : M unit) :
  adds_marks c1 -> keeps unmarked c1 -> adds_marks c2 ->
  adds_marks (c1 ;; c2).
Proof.
  intros H1 K1 H2 s. unfold mbind, gc_bind, bind. rewrite (H1 s).
  destruct (c1 (unmarked s)) as [[] s1|f] eqn:E1; [|reflexivity].
  pose proof (K1 _ _ _ E1) as Hs1. unfold same in Hs1.
  change (unmarked (unmarked s)) with (unmarked s) in Hs1.
  rewrite (H2 (add_marks s1 s)), (H2 s1).
  change (unmarked (add_marks s1 s)) with (unmarked s). rewrite Hs1.
  destruct (c2 (unmarked s)) as [[] s2|f]; [|reflexivity].
  now rewrite add_marks_assoc.
Qed.

Lemma adds_marks_forEach {A} (body : A -> M unit) l :
  (forall x, adds_marks (body x)) -> (forall x, keeps unmarked (body x)) ->
  adds_marks (forEach body l).
Proof.
  intros Hb Kb. induction l as [|x l IH]; simpl.
  - apply adds_marks_ret.
  - apply adds_marks_seq; auto.
Qed.

Lemma adds_marks_getFields offset (k : list (option JType) -> M unit) :
  (forall fields, adds_marks (k fields)) ->
  adds_marks (getFields offset ≫= k).
Proof.
  intros Hk s. unfold mbind, gc_bind, bind, getFields.
  change (jheap (unmarked s)) with (jheap s).
  destruct (objectContainer (jheap s) !! offset); [apply Hk|reflexivity].
Qed.

Lemma adds_marks_getElements offset
  (k : N * list (option JType) -> M unit) :
  (forall items, adds_marks (k items)) ->
  adds_marks (getElements offset ≫= k).
Proof.
  intros Hk s. unfold mbind, gc_bind, bind, getElements.
  change (jheap (unmarked s)) with (jheap s).
  destruct (arrayContainer (jheap s) !! offset); [apply Hk|reflexivity].
Qed.

Lemma adds_marks_readSlot slots i (k : option JType -> M unit) :
  (forall r, adds_marks (k r)) -> adds_marks (readSlot slots i ≫= k).
Proof.
  intros Hk s. unfold mbind, gc_bind, bind, readSlot.
  destruct (slots !! i); [apply Hk|reflexivity].
Qed.

Lemma keeps_unmarked_mark fuel r : keeps unmarked (mark fuel r).
Proof.
  apply respects_mark; [apply _|]. intros ob ab s _ _. reflexivity.
Qed.

Lemma adds_marks_mark fuel : forall r, adds_marks (mark fuel r).
Proof.
  induction fuel as [|fuel IH]; intros [[o|o|]|];
    try apply adds_marks_ret; try (intros s; reflexivity).
  - rewrite mark_object. apply adds_marks_seq.
    + apply adds_marks_insertObjectBitmap.
    + apply respects_insertObjectBitmap; [apply _|].
      intros ob ab s _ _. reflexivity.
    + apply adds_marks_getFields. intros fields.
      apply adds_marks_forEach; [exact IH|].
      intros r. apply keeps_unmarked_mark.
  - rewrite mark_array. apply adds_marks_seq.
    + apply adds_marks_insertArrayBitmap.
    + apply respects_insertArrayBitmap; [apply _|].
      intros ob ab s _ _. reflexivity.
    + apply adds_marks_getElements. intros items.
      apply adds_marks_forEach.
      * intros i. apply adds_marks_readSlot, IH.
      * intros i. apply respects_bind;
          [apply _|apply respects_readSlot, _
          |intros r; apply keeps_unmarked_mark].
Qed.

Lemma adds_marks_markStaticVar x : adds_marks (markStaticVar x).
Proof.
  unfold markStaticVar. destruct (x.2) as [[o|o|]|].
  - apply adds_marks_insertObjectBitmap.
  - apply adds_marks_insertArrayBitmap.
  - apply adds_marks_ret.
  - apply adds_marks_fail.
Qed.

Lemma adds_marks_mark_task fuel t :
  is_mark_task t = true -> adds_marks (runTask fuel t).
Proof.
  assert (Hslots : forall slots n,
             adds_marks
               (forEach (fun i => r ← readSlot slots i ; mark fuel r)
                        (seq 0 n))).
  { intros slots n. apply adds_marks_forEach.
    - intros i. apply adds_marks_readSlot, adds_marks_mark.
    - intros i. apply respects_bind;
        [apply _|apply respects_readSlot, _
        |intros r; apply keeps_unmarked_mark]. }
  destruct t; try discriminate; intros _; cbn [runTask];
    try apply Hslots.
  intros s. unfold mbind, gc_bind, bind, read.
  change (classTable (unmarked s)) with (classTable s).
  apply adds_marks_forEach.
  - intros c. apply adds_marks_forEach.
    + apply adds_marks_markStaticVar.
    + intros x. apply respects_markStaticVar; [apply _|].
      intros ob ab s0 _ _. reflexivity.
  - intros c. apply respects_forEach; [apply _|].
    intros x. apply respects_markStaticVar; [apply _|].
    intros ob ab s0 _ _. reflexivity.
Qed.

(** Two marking tasks that both return give the same state in either
    order: the marks of a cycle do not depend on the order in which the
    pool runs its marking tasks. *)
Theorem mark_tasks_commute fuel t1 t2 s s' :
  is_mark_task t1 = true -> is_mark_task t2 = true ->
  (runTask fuel t1 ;; runTask fuel t2) s = Done tt s' ->
  (runTask fuel t2 ;; runTask fuel t1) s = Done tt s'.
Proof.
  intros Ht1 Ht2 Hrun.
  pose proof (adds_marks_mark_task fuel t1 Ht1) as H1.
  pose proof (adds_marks_mark_task fuel t2 Ht2) as H2.
  apply bind_Done in Hrun as ([] & sa & Ha & Hb).
  rewrite (H1 s) in Ha.
  destruct (runTask fuel t1 (unmarked s)) as [[] u1|f] eqn:E1;
    [|discriminate].
  inversion Ha; subst sa; clear Ha.
  rewrite (H2 (add_marks u1 s)) in Hb.
  change (unmarked (add_marks u1 s)) with (unmarked s) in Hb.
  destruct (runTask fuel t2 (unmarked s)) as [[] u2|f] eqn:E2;
    [|discriminate].
  inversion Hb; subst s'; clear Hb.
  unfold mbind, gc_bind, bind. rewrite (H2 s), E2.
  rewrite (H1 (add_marks u2 s)).
  change (unmarked (add_marks u2 s)) with (unmarked s). rewrite E1.
  now rewrite add_marks_comm.
Qed.

(** The three sweep tasks write disjoint containers and read only the
    mark sets: any two of them commute. *)
Theorem sweep_tasks_commute s :
  sweepObjects (sweepArrays s) = sweepArrays (sweepObjects s) /\
  sweepObjects (sweepMonitors s) = sweepMonitors (sweepObjects s) /\
  sweepArrays (sweepMonitors s) = sweepMonitors (sweepArrays s).
Proof. repeat split; reflexivity. Qed.

(** ** Roots in static fields *)

(** Object 5 is referenced by the static field 0 of the one loaded class
    and points to object 6; no frame refers to either. *)
Definition static_runtime : Runtime :=
  mkRuntime
    (mkJavaHeap {[ 5%N := [Some (JObject 6)]; 6%N := [] ]} ∅ ∅)
    [mkJavaClass [(0%N, Some (JObject 5))]]
    (idle_collector true) 1 [].

Definition static_runtime_collected : Runtime :=
  outcome_state (gc 4 (Some []) GC_MARK_AND_SWEEP static_runtime) static_runtime.

(** C1, on the code: object 5 is the referent of a static field and
    object 6 is in its closure, both are in the object container when the
    collecting cycle starts, the cycle completes, and neither is in the
    container afterwards.  The static-field task has put the key of the
    field, 0, in the object mark set, not the offset of the object the
    field refers to, and has not followed the object's fields. *)
Theorem gc_sweeps_static_reachable :
  overMemoryThreshold (collector static_runtime) = true /\
  static_root (classTable static_runtime) (JObject 5) /\
  reachable (jheap static_runtime) (JObject 5) (JObject 6) /\
  present (jheap static_runtime) (JObject 5) /\
  present (jheap static_runtime) (JObject 6) /\
  gc 4 (Some []) GC_MARK_AND_SWEEP static_runtime
  = Done tt static_runtime_collected /\
  ~ present (jheap static_runtime_collected) (JObject 5) /\
  ~ present (jheap static_runtime_collected) (JObject 6).
Proof.
  split; [reflexivity|].
  split.
  { exists (mkJavaClass [(0%N, Some (JObject 5))]), 0%N.
    split; apply elem_of_cons; now left. }
  split.
  { eapply rtc_l; [|apply rtc_refl].
    eapply points_to_field; [vm_compute; reflexivity|].
    apply elem_of_cons. now left. }
  split; [eexists; vm_compute; reflexivity|].
  split; [eexists; vm_compute; reflexivity|].
  split; [vm_compute; reflexivity|].
  split; intros [fields H]; vm_compute in H; discriminate.
Qed.

(** The same with the field's key equal to the offset of its referent:
    object 5 now survives, the object 6 it points to does not. *)
Example gc_does_not_follow_static_referent :
  let s := mkRuntime (jheap static_runtime)
                     [mkJavaClass [(5%N, Some (JObject 5))]]
                     (idle_collector true) 1 [] in
  exists s',
    gc 4 (Some []) GC_MARK_AND_SWEEP s = Done tt s' /\
    present (jheap s') (JObject 5) /\ ~ present (jheap s') (JObject 6).
Proof.
  eexists. split; [vm_compute; reflexivity|].
  split; [eexists; vm_compute; reflexivity|].
  intros [fields H]; vm_compute in H; discriminate.
Qed.

(** In the chain scenario the root is in a stack slot, and the whole
    chain survives; the monitor of the surviving object 1 does not. *)
Example chain_survives :
  entry (jheap chain_runtime_collected) (JObject 4)
  = entry (jheap (chain_runtime true)) (JObject 4) /\
  objectContainer (jheap chain_runtime_collected) !! 7%N = None /\
  monitorContainer (jheap chain_runtime_collected) !! 1%N = None.
Proof. repeat split; vm_compute; reflexivity. Qed.

(** ** Instances of the conditional theorems *)

Definition chain_runtime_marking : Runtime :=
  gc_start (Some chain_frames) (chain_runtime true).

Definition chain_runtime_swept : Runtime :=
  outcome_state (markAndSweep 4 chain_runtime_marking) chain_runtime_marking.

Lemma sweep_starts_after_marking_awaited_witness :
  exists s1,
    markPhase 4 chain_runtime_marking = Done tt s1 /\
    sweep 4 s1 = Done tt chain_runtime_swept /\
    trace s1
    = trace chain_runtime_marking
      ++ map (fun e => EvSubmit e.1 e.2)
             (mark_queue (issued (pool chain_runtime_marking)) chain_frames)
      ++ map EvGet
             (mark_futures (issued (pool chain_runtime_marking)) chain_frames) /\
    (forall fr, fr ∈ chain_frames ->
       StackMarkTask fr
         ∈ (mark_queue (issued (pool chain_runtime_marking)) chain_frames).*2 /\
       LocalMarkTask fr
         ∈ (mark_queue (issued (pool chain_runtime_marking)) chain_frames).*2) /\
    StaticFieldsTask
      ∈ (mark_queue (issued (pool chain_runtime_marking)) chain_frames).*2 /\
    (forall e,
       e ∈ mark_queue (issued (pool chain_runtime_marking)) chain_frames ->
       e.1 ∈ mark_futures (issued (pool chain_runtime_marking)) chain_frames) /\
    queue s1 = [] /\
    trace chain_runtime_swept = trace s1 ++ sweep_events (issued (pool s1)).
Proof.
  apply (sweep_starts_after_marking_awaited 4 chain_runtime_marking
           chain_runtime_swept chain_frames).
  - reflexivity.
  - reflexivity.
  - vm_compute. reflexivity.
Defined.

Lemma mark_unexpected_variant_is_fatal_witness :
  mark 4 (Some JPrimitive) (chain_runtime true) = Fail ShouldNotReachHere /\
  mark 4 (Some (JObject 7)) (chain_runtime true) <> Fail ShouldNotReachHere.
Proof.
  split.
  - apply (proj1 (mark_unexpected_variant_is_fatal 4 JPrimitive
                    (chain_runtime true))); reflexivity.
  - apply (proj2 (mark_unexpected_variant_is_fatal 4 (JObject 7)
                    (chain_runtime true))).
    intros w Hreach. apply rtc_inv in Hreach as [<-|(y & Hpt & _)].
    + left. reflexivity.
    + inversion Hpt as [o fields y' Ho Hin|]; subst.
      vm_compute in Ho. inversion Ho; subst fields. inversion Hin.
Defined.

(** * Further properties of the collector *)

(** ** What [mark] adds, and when it returns *)

(** A loop whose iterations only add marks of some kind [Q] adds marks of
    that kind only. *)
Lemma forEach_marks_from {A} (Q : A -> JType -> Prop)
  (body : A -> M unit) l s s' :
  (forall x, keeps jheap (body x)) ->
  (forall x sa sb, x ∈ l -> jheap sa = jheap s -> body x sa = Done tt sb ->
     forall w, marked sb w -> marked sa w \/ Q x w) ->
  forEach body l s = Done tt s' ->
  forall w, marked s' w -> marked s w \/ exists x, x ∈ l /\ Q x w.
Proof.
  intros Hk. revert s. induction l as [|x l IH]; intros s Hb Hrun w Hw.
  - inversion Hrun; subst. now left.
  - simpl in Hrun. apply bind_Done in Hrun as ([] & s1 & Hx & Hrest).
    pose proof (Hk x _ _ _ Hx) as Hh. unfold same in Hh.
    destruct (IH s1) with (w := w) as [Hm|(y & Hy & HQ)]; try assumption.
    + intros y sa sb Hy Hsa. apply Hb; [now right|congruence].
    + destruct (Hb x s s1 (list_elem_of_here _ _) eq_refl Hx w Hm)
        as [Hm0|HQ]; [now left|].
      right. exists x. split; [now left|exact HQ].
    + right. exists y. split; [now right|exact HQ].
Qed.

(** [mark] marks nothing outside the closure of its argument. *)
Lemma mark_marks_from fuel :
  forall r s s',
    mark fuel r s = Done tt s' ->
    forall w, marked s' w ->
      marked s w \/ exists v, r = Some v /\ reachable (jheap s) v w.
Proof.
  induction fuel as [|fuel IH]; intros [[o|o|]|] s s' Hrun w Hw;
    try discriminate;
    try (inversion Hrun; subst; now left).
  - (* object *)
    rewrite mark_object in Hrun.
    apply bind_Done in Hrun as ([] & s1 & Hins & Hrun).
    apply bind_Done in Hrun as (fields & s1' & Hf & Hrun).
    apply getFields_Done in Hf as [-> Ho].
    assert (Hh1 : jheap s1 = jheap s)
      by (eapply insertObjectBitmap_jheap, Hins).
    rewrite Hh1 in Ho.
    destruct (forEach_marks_from
                (fun x w => exists y, x = Some y /\ reachable (jheap s) y w)
                (mark fuel) fields s1 s') with (w := w)
      as [Hm|(x & Hx & y & -> & Hreach)]; try assumption.
    + intros x. apply mark_keeps_jheap.
    + intros x sa sb _ Hsa Hx w0 Hw0.
      destruct (IH _ _ _ Hx w0 Hw0) as [Hm|(y & -> & Hreach)]; [now left|].
      right. exists y. split; [reflexivity|]. now rewrite <- Hh1, <- Hsa.
    + inversion Hins; subst s1. destruct w as [o'|o'|]; simpl in Hm.
      * apply elem_of_union in Hm as [Hm|Hm]; [|now left].
        apply elem_of_singleton in Hm as ->.
        right. exists (JObject o). split; [reflexivity|apply rtc_refl].
      * now left.
      * destruct Hm.
    + right. exists (JObject o). split; [reflexivity|].
      eapply rtc_l; [|exact Hreach]. eapply points_to_field; eassumption.
  - (* array *)
    rewrite mark_array in Hrun.
    apply bind_Done in Hrun as ([] & s1 & Hins & Hrun).
    apply bind_Done in Hrun as ([len elems] & s1' & Hf & Hrun).
    apply getElements_Done in Hf as [-> Ho]. cbn [fst snd] in Hrun.
    assert (Hh1 : jheap s1 = jheap s)
      by (eapply insertArrayBitmap_jheap, Hins).
    rewrite Hh1 in Ho.
    destruct (forEach_marks_from
                (fun i w => exists y, elems !! i = Some (Some y) /\
                                      reachable (jheap s) y w)
                (fun i => r ← readSlot elems i ; mark fuel r)
                (seq 0 (N.to_nat len)) s1 s') with (w := w)
      as [Hm|(i & Hi & y & Hy & Hreach)]; try assumption.
    + intros i. apply respects_bind;
        [apply _|apply respects_readSlot, _|intros; apply mark_keeps_jheap].
    + intros i sa sb _ Hsa Hx w0 Hw0.
      apply bind_Done in Hx as (r & sa' & Hr & Hx).
      apply readSlot_Done in Hr as [-> Hr].
      destruct (IH _ _ _ Hx w0 Hw0) as [Hm|(y & -> & Hreach)]; [now left|].
      right. exists y. split; [exact Hr|]. now rewrite <- Hh1, <- Hsa.
    + inversion Hins; subst s1. destruct w as [o'|o'|]; simpl in Hm.
      * now left.
      * apply elem_of_union in Hm as [Hm|Hm]; [|now left].
        apply elem_of_singleton in Hm as ->.
        right. exists (JArray o). split; [reflexivity|apply rtc_refl].
      * destruct Hm.
    + right. exists (JArray o). split; [reflexivity|].
      eapply rtc_l; [|exact Hreach].
      apply elem_of_seq in Hi.
      eapply points_to_element; [exact Ho| |exact Hy]. lia.
Qed.

(** X2: a call of [mark] that returns has changed nothing but the two
    mark sets, and what is marked afterwards is exactly what was marked
    before together with the closure of the reference. *)
Theorem mark_marks_exactly_closure
  (fuel : nat) (v : JType) (s s' : Runtime) :
  mark fuel (Some v) s = Done tt s' ->
  unmarked s' = unmarked s /\
  forall w, marked s' w <-> marked s w \/ reachable (jheap s) v w.
Proof.
  intros Hrun. split; [exact (keeps_unmarked_mark _ _ _ _ _ Hrun)|].
  intros w. split.
  - intros Hw.
    destruct (mark_marks_from _ _ _ _ Hrun w Hw) as [Hm|(v' & E & Hr)];
      [now left|].
    inversion E; subst v'. now right.
  - intros [Hm|Hr].
    + eapply marked_le_marks; [|exact Hm].
      apply (respects_mark le_marks le_marks_allows_marking _ _ _ _ _ Hrun).
    + apply (mark_reaches _ _ _ _ Hrun w Hr).
Qed.

Lemma add_marks_twice u s : add_marks u (add_marks u s) = add_marks u s.
Proof.
  unfold add_marks, set_marks, with_collector.
  cbn [collector objectBitmap arrayBitmap set_arrayBitmap set_objectBitmap
       jheap classTable threadNum trace frames overMemoryThreshold
       safepointWaitCnt gcThreadPool].
  rewrite !(assoc_L (∪)), !(idemp_L (∪)). reflexivity.
Qed.

(** X3: marking is idempotent: after a call of [mark] that returns, the
    same call returns again and leaves the state as it is. *)
Theorem mark_again_changes_nothing
  (fuel : nat) (r : option JType) (s s' : Runtime) :
  mark fuel r s = Done tt s' -> mark fuel r s' = Done tt s'.
Proof.
  intros Hrun.
  pose proof (keeps_unmarked_mark _ _ _ _ _ Hrun) as Hsame.
  unfold same in Hsame.
  rewrite (adds_marks_mark fuel r s) in Hrun.
  rewrite (adds_marks_mark fuel r s'), Hsame.
  destruct (mark fuel r (unmarked s)) as [[] u|f]; [|discriminate].
  inversion Hrun; subst s'. now rewrite add_marks_twice.
Qed.

(** A heap value on a cycle of references. *)
Definition on_cycle (h : JavaHeap) (v : JType) : Prop :=
  exists y, points_to h v y /\ reachable h y v.

Lemma on_cycle_next h v y :
  points_to h v y -> reachable h y v -> on_cycle h y.
Proof.
  intros Hpt Hr. apply rtc_inv in Hr as [->|(z & Hyz & Hzv)].
  - exists v. split; [exact Hpt|apply rtc_refl].
  - exists z. split; [exact Hyz|].
    eapply rtc_r; [exact Hzv|exact Hpt].
Qed.

(** X4: [mark] has no visited test: on a heap value that lies on a cycle
    of references it returns for no recursion budget. *)
Theorem mark_never_returns_on_cycle
  (fuel : nat) (v : JType) (s s' : Runtime) :
  on_cycle (jheap s) v -> mark fuel (Some v) s <> Done tt s'.
Proof.
  assert (Hmark : forall fuel r, respects marking_step (mark fuel r))
    by (intros; apply respects_mark;
        [apply _|apply marking_step_allows_marking]).
  revert v s s'.
  induction fuel as [|fuel IH]; intros [o|o|] s s' Hcyc Hrun;
    try discriminate.
  - destruct Hcyc as (y & Hpt & Hback).
    rewrite mark_object in Hrun.
    apply bind_Done in Hrun as ([] & s1 & Hins & Hrun).
    apply bind_Done in Hrun as (fields & s1' & Hf & Hrun).
    apply getFields_Done in Hf as [-> Ho].
    assert (Hh1 : jheap s1 = jheap s)
      by (eapply insertObjectBitmap_jheap, Hins).
    rewrite Hh1 in Ho.
    inversion Hpt as [o' fields' y' Ho' Hin|]; subst.
    rewrite Ho in Ho'. inversion Ho'; subst fields'.
    destruct (forEach_elem marking_step (mark fuel) fields s1 s' (Some y)
                (Hmark fuel) Hrun Hin)
      as (sa & sb & Hy & (Hha & _ & _) & _).
    apply (IH y sa sb); [|exact Hy].
    rewrite Hha, Hh1. eapply on_cycle_next; eassumption.
  - destruct Hcyc as (y & Hpt & Hback).
    rewrite mark_array in Hrun.
    apply bind_Done in Hrun as ([] & s1 & Hins & Hrun).
    apply bind_Done in Hrun as ([len elems] & s1' & Hf & Hrun).
    apply getElements_Done in Hf as [-> Ho]. cbn [fst snd] in Hrun.
    assert (Hh1 : jheap s1 = jheap s)
      by (eapply insertArrayBitmap_jheap, Hins).
    rewrite Hh1 in Ho.
    inversion Hpt as [|o' len' elems' i y' Ho' Hi Hy']; subst.
    rewrite Ho in Ho'. inversion Ho'; subst len' elems'.
    assert (Hbody : forall i,
               respects marking_step (r ← readSlot elems i ; mark fuel r)).
    { intros j. apply respects_bind;
        [apply _|apply respects_readSlot, _|intros r; apply Hmark]. }
    assert (Hin : i ∈ seq 0 (N.to_nat len)) by (apply elem_of_seq; lia).
    destruct (forEach_elem marking_step _ _ s1 s' i Hbody Hrun Hin)
      as (sa & sb & Hy & (Hha & _ & _) & _).
    apply bind_Done in Hy as (r & sa' & Hr & Hy).
    apply readSlot_Done in Hr as [-> Hr]. rewrite Hy' in Hr.
    inversion Hr; subst r.
    apply (IH y sa sb); [|exact Hy].
    rewrite Hha, Hh1. eapply on_cycle_next; eassumption.
Qed.

(** ** Heaps on which marking returns *)

(** A reference that is null, or refers to a present object or array of
    rank below [bound]. *)
Definition ref_below (h : JavaHeap) (rank : JType -> nat) (bound : nat)
  (r : option JType) : bool :=
  match r with
  | None => true
  | Some (JObject offset) =>
      bool_decide (is_Some (objectContainer h !! offset))
      && (rank (JObject offset) <? bound)%nat
  | Some (JArray offset) =>
      bool_decide (is_Some (arrayContainer h !! offset))
      && (rank (JArray offset) <? bound)%nat
  | Some JPrimitive => false
  end.

(** Every slot of every object and array refers to nothing, or to a
    present object or array of smaller rank, and every array has storage
    for its length: the heap has no dangling reference, no boxed primitive
    in a slot, and no cycle. *)
Definition closed_ranked (h : JavaHeap) (rank : JType -> nat) : bool :=
  forallb (fun e => forallb (ref_below h rank (rank (JObject e.1))) e.2)
          (map_to_list (objectContainer h))
  && forallb (fun e =>
                (N.to_nat e.2.1 <=? length e.2.2)%nat
                && forallb (ref_below h rank (rank (JArray e.1)))
                           (take (N.to_nat e.2.1) e.2.2))
             (map_to_list (arrayContainer h)).

Lemma forallb_elem {A} (f : A -> bool) l x :
  forallb f l = true -> x ∈ l -> f x = true.
Proof.
  intros H Hin. rewrite forallb_forall in H. apply H.
  now apply list_elem_of_In.
Qed.

Lemma ref_below_le h rank b b' r :
  (b <= b')%nat -> ref_below h rank b r = true ->
  ref_below h rank b' r = true.
Proof.
  intros Hle. destruct r as [[o|o|]|]; simpl; try tauto;
    rewrite !andb_true_iff, !Nat.ltb_lt; intros [Hp Hr]; split;
    try assumption; lia.
Qed.

Lemma closed_ranked_fields h rank offset fields :
  closed_ranked h rank = true ->
  objectContainer h !! offset = Some fields ->
  forallb (ref_below h rank (rank (JObject offset))) fields = true.
Proof.
  unfold closed_ranked. rewrite andb_true_iff. intros [H _] Ho.
  apply (forallb_elem _ _ (offset, fields) H).
  now apply elem_of_map_to_list.
Qed.

Lemma closed_ranked_elements h rank offset len elems :
  closed_ranked h rank = true ->
  arrayContainer h !! offset = Some (len, elems) ->
  (N.to_nat len <= length elems)%nat /\
  forallb (ref_below h rank (rank (JArray offset)))
          (take (N.to_nat len) elems) = true.
Proof.
  unfold closed_ranked. rewrite andb_true_iff. intros [_ H] Ho.
  pose proof (forallb_elem _ _ (offset, (len, elems)) H) as He.
  cbn [fst snd] in He. rewrite andb_true_iff, Nat.leb_le in He.
  apply He. now apply elem_of_map_to_list.
Qed.

(** A loop returns when each iteration returns from every state with the
    heap of the start. *)
Lemma forEach_returns {A} (body : A -> M unit) l s :
  (forall x, keeps jheap (body x)) ->
  (forall x sa, x ∈ l -> jheap sa = jheap s ->
                exists sb, body x sa = Done tt sb) ->
  exists s', forEach body l s = Done tt s'.
Proof.
  intros Hk. revert s. induction l as [|x l IH]; intros s Hb.
  - exists s. reflexivity.
  - destruct (Hb x s) as (s1 & Hx); [now left|reflexivity|].
    pose proof (Hk x _ _ _ Hx) as Hh. unfold same in Hh.
    destruct (IH s1) as (s' & Hrest).
    + intros y sa Hy Hsa. apply Hb; [now right|congruence].
    + exists s'. simpl. now rewrite (bind_run _ _ _ _ _ Hx).
Qed.

Lemma mark_returns fuel rank :
  forall r s,
    closed_ranked (jheap s) rank = true ->
    ref_below (jheap s) rank fuel r = true ->
    exists s', mark fuel r s = Done tt s'.
Proof.
  induction fuel as [|fuel IH]; intros [[o|o|]|] s Hheap Hr;
    try (exists s; reflexivity); try discriminate;
    simpl in Hr; apply andb_true_iff in Hr as [Hp Hrank];
    apply bool_decide_eq_true in Hp; apply Nat.ltb_lt in Hrank;
    try lia.
  - (* object *)
    destruct Hp as [fields Ho].
    pose proof (closed_ranked_fields _ _ _ _ Hheap Ho) as Hfields.
    rewrite mark_object.
    rewrite (bind_run (insertObjectBitmap o) _ s tt _ eq_refl).
    erewrite (bind_run (getFields o));
      [|unfold getFields; change (jheap (with_collector _ s)) with (jheap s);
        rewrite Ho; reflexivity].
    apply forEach_returns; [intros x; apply mark_keeps_jheap|].
    intros x sa Hx Hsa. apply IH.
    + now rewrite Hsa.
    + rewrite Hsa. change (jheap (with_collector _ s)) with (jheap s).
      apply (ref_below_le _ _ (rank (JObject o))); [lia|].
      apply (forallb_elem _ _ _ Hfields Hx).
  - (* array *)
    destruct Hp as [[len elems] Ho].
    destruct (closed_ranked_elements _ _ _ _ _ Hheap Ho) as [Hlen Helems].
    rewrite mark_array.
    rewrite (bind_run (insertArrayBitmap o) _ s tt _ eq_refl).
    erewrite (bind_run (getElements o));
      [|unfold getElements;
        change (jheap (with_collector _ s)) with (jheap s);
        rewrite Ho; reflexivity].
    cbn [fst snd].
    apply forEach_returns.
    { intros i. apply respects_bind;
        [apply _|apply respects_readSlot, _|intros; apply mark_keeps_jheap]. }
    intros i sa Hi Hsa. apply elem_of_seq in Hi.
    destruct (lookup_lt_is_Some_2 elems i) as [r Hslot]; [lia|].
    rewrite (bind_run (readSlot elems i) _ sa r sa)
      by (unfold readSlot; now rewrite Hslot).
    apply IH.
    + now rewrite Hsa.
    + rewrite Hsa. change (jheap (with_collector _ s)) with (jheap s).
      apply (ref_below_le _ _ (rank (JArray o))); [lia|].
      apply (forallb_elem _ _ _ Helems).
      apply list_elem_of_lookup. exists i.
      rewrite lookup_take_lt by lia. exact Hslot.
Qed.

(** X5: on a heap without dangling references, boxed primitives in slots
    or cycles (every slot refers to a present object or array of smaller
    rank), [mark] returns as soon as the recursion budget exceeds the rank
    of the heap value it is called on. *)
Theorem mark_returns_on_ranked_heap
  (fuel : nat) (rank : JType -> nat) (v : JType) (s : Runtime) :
  closed_ranked (jheap s) rank = true ->
  present (jheap s) v -> (rank v < fuel)%nat ->
  exists s', mark fuel (Some v) s = Done tt s'.
Proof.
  intros Hheap Hp Hrank. apply (mark_returns fuel rank); [exact Hheap|].
  destruct v as [o|o|]; simpl in *; try contradiction;
    apply andb_true_iff; split;
    try (apply bool_decide_eq_true; exact Hp); now apply Nat.ltb_lt.
Qed.

(** ** What [sweep] keeps *)

(** X6: with the pool awake and nothing pending, [sweep] returns; an
    object or array entry is kept, unchanged, exactly when its offset is
    in the mark set of its kind, a monitor entry exactly when its offset
    is in both mark sets; no entry is added and the mark sets are left as
    they are. *)
Theorem sweep_keeps_exactly_the_marked (fuel : nat) (s : Runtime) :
  queue s = [] -> work (pool s) = true ->
  exists s',
    sweep fuel s = Done tt s' /\
    (forall k,
        objectContainer (jheap s') !! k
        = if bool_decide (k ∈ objectBitmap (collector s))
          then objectContainer (jheap s) !! k else None) /\
    (forall k,
        arrayContainer (jheap s') !! k
        = if bool_decide (k ∈ arrayBitmap (collector s))
          then arrayContainer (jheap s) !! k else None) /\
    (forall k,
        monitorContainer (jheap s') !! k
        = if bool_decide (k ∈ objectBitmap (collector s))
             && bool_decide (k ∈ arrayBitmap (collector s))
          then monitorContainer (jheap s) !! k else None) /\
    objectBitmap (collector s') = objectBitmap (collector s) /\
    arrayBitmap (collector s') = arrayBitmap (collector s).
Proof.
  intros Hq Hw. exists (sweep_result s). split; [now apply sweep_spec|].
  rewrite sweep_result_jheap. unfold swept_heap.
  cbn [objectContainer arrayContainer monitorContainer].
  split; [intros k; apply sweepContainer_lookup|].
  split; [intros k; apply sweepContainer_lookup|].
  split; [|apply sweep_result_marks].
  intros k. rewrite sweepContainer_lookup.
  repeat case_bool_decide; simpl; try reflexivity; exfalso; tauto.
Qed.

Lemma get_head_blocked fuel fut t q s :
  queue s = (fut, t) :: q -> work (pool s) = false ->
  get fuel fut s = Fail Blocked.
Proof.
  intros Hq Hw. unfold get. apply bind_fail.
  unfold queue in Hq. rewrite Hq. cbn [takeTask].
  rewrite decide_True by reflexivity. now rewrite Hw.
Qed.

(** X7: a pool that has not been signalled runs nothing: [sweep] on a
    sleeping pool stays blocked on its first future. *)
Theorem sweep_blocks_on_sleeping_pool (fuel : nat) (s : Runtime) :
  queue s = [] -> work (pool s) = false ->
  sweep fuel s = Fail Blocked.
Proof.
  intros Hq Hw. unfold sweep.
  rewrite (bind_run _ _ _ _ _ (submit_spec _ _)).
  rewrite (bind_run _ _ _ _ _ (submit_spec _ _)).
  rewrite (bind_run _ _ _ _ _ (submit_spec _ _)).
  rewrite !submitted_app. apply bind_fail.
  match goal with
  | |- get _ ?f ?st = _ =>
      apply (get_head_blocked fuel f ObjectSweepTask
               (tail (taskQueue (pool st))) st)
  end.
  - unfold submitted, queue, pool in *. cbn. rewrite Hq. reflexivity.
  - exact Hw.
Qed.

(** ** What the marking tasks mark *)

(** An offset that is the key of a static field holding an object (for an
    object) or an array (for an array): what the static-field task puts
    in the mark sets. *)
Definition static_key (classes : list JavaClass) (w : JType) : Prop :=
  exists c r,
    c ∈ classes /\
    match w with
    | JObject k => (k, Some (JObject r)) ∈ staticVars c
    | JArray k => (k, Some (JArray r)) ∈ staticVars c
    | JPrimitive => False
    end.

(** The closure of the slots a frame task scans, and the keys the
    static-field task inserts. *)
Definition task_marks (h : JavaHeap) (classes : list JavaClass)
  (t : Task) (w : JType) : Prop :=
  match t with
  | StackMarkTask fr =>
      exists i v, (i < Z.to_nat (maxStack fr))%nat /\
                  stackSlots fr !! i = Some (Some v) /\ reachable h v w
  | LocalMarkTask fr =>
      exists i v, (i < Z.to_nat (maxLocal fr))%nat /\
                  localSlots fr !! i = Some (Some v) /\ reachable h v w
  | StaticFieldsTask => static_key classes w
  | _ => False
  end.

Lemma markStaticVar_marks x s s' w :
  markStaticVar x s = Done tt s' ->
  (marked s' w <->
   marked s w \/
   match w with
   | JObject k => exists r, x = (k, Some (JObject r))
   | JArray k => exists r, x = (k, Some (JArray r))
   | JPrimitive => False
   end).
Proof.
  destruct x as [k [[r|r|]|]]; unfold markStaticVar; cbn [fst snd];
    intros H; inversion H; subst s'; clear H;
    destruct w as [o|o|]; simpl;
    rewrite ?elem_of_union, ?elem_of_singleton;
    split; try tauto;
    try (intros [Hm|[r' E]]; [tauto|inversion E; subst; tauto]);
    try (intros [E|Hm]; [subst; right; eexists; reflexivity|tauto]);
    try (intros [Hm|[r' E]]; [tauto|inversion E]).
Qed.

Lemma markStaticVar_keeps_jheap x : keeps jheap (markStaticVar x).
Proof.
  apply respects_markStaticVar; [apply _|]. intros ob ab s _ _. reflexivity.
Qed.

Lemma slots_task_marks_from fuel slots n sa sb w :
  forEach (fun i => r ← readSlot slots i ; mark fuel r) (seq 0 n) sa
  = Done tt sb ->
  marked sb w ->
  marked sa w \/
  exists i v, (i < n)%nat /\ slots !! i = Some (Some v) /\
              reachable (jheap sa) v w.
Proof.
  intros Hrun Hw.
  destruct (forEach_marks_from
              (fun i w => exists v, slots !! i = Some (Some v) /\
                                    reachable (jheap sa) v w)
              (fun i => r ← readSlot slots i ; mark fuel r)
              (seq 0 n) sa sb) with (w := w)
    as [Hm|(i & Hi & v & Hv & Hr)]; try assumption.
  - intros i. apply respects_bind;
      [apply _|apply respects_readSlot, _|intros; apply mark_keeps_jheap].
  - intros i s1 s2 _ Hh Hx w0 Hw0.
    apply bind_Done in Hx as (r & s1' & Hr & Hx).
    apply readSlot_Done in Hr as [-> Hr].
    destruct (mark_marks_from _ _ _ _ Hx w0 Hw0) as [Hm|(v & -> & Hreach)];
      [now left|].
    right. exists v. split; [exact Hr|]. now rewrite <- Hh.
  - now left.
  - right. exists i, v. apply elem_of_seq in Hi. repeat split; auto. lia.
Qed.

(** A marking task that returns has marked exactly what was marked
    before together with its own share: the closure of the slots it scans
    for a frame task, the keys of the object- and array-typed static
    fields for the static-field task. *)
Lemma mark_task_marks_exactly
  (fuel : nat) (t : Task) (sa sb : Runtime) (w : JType) :
  is_mark_task t = true ->
  runTask fuel t sa = Done tt sb ->
  (marked sb w <->
   marked sa w \/ task_marks (jheap sa) (classTable sa) t w).
Proof.
  intros Ht Hrun. split.
  - intros Hw. destruct t; try discriminate; cbn [runTask task_marks] in *.
    + now apply (slots_task_marks_from fuel _ _ sa sb).
    + now apply (slots_task_marks_from fuel _ _ sa sb).
    + apply bind_Done in Hrun as (classes & sa' & Hread & Hrun).
      inversion Hread; subst classes sa'; clear Hread.
      destruct (forEach_marks_from
                  (fun c w => static_key [c] w)
                  (fun c => forEach markStaticVar (staticVars c))
                  (classTable sa) sa sb) with (w := w)
        as [Hm|(c & Hc & c' & r & Hc' & Hkey)]; try eassumption.
      * intros c. apply respects_forEach; [apply _|].
        intros x. apply markStaticVar_keeps_jheap.
      * intros c s1 s2 _ _ Hc w0 Hw0.
        destruct (forEach_marks_from
                    (fun x w => marked (set_marks ∅ ∅ s1) w \/
                       match w with
                       | JObject k => exists r, x = (k, Some (JObject r))
                       | JArray k => exists r, x = (k, Some (JArray r))
                       | JPrimitive => False
                       end)
                    markStaticVar (staticVars c) s1 s2) with (w := w0)
          as [Hm|(x & Hx & [Hm|Hkey])]; try eassumption.
        -- intros x. apply markStaticVar_keeps_jheap.
        -- intros x s3 s4 _ _ Hx w1 Hw1.
           apply (markStaticVar_marks _ _ _ w1 Hx) in Hw1 as [Hm|Hk];
             [now left|right; now right].
        -- now left.
        -- destruct w0; simpl in Hm; try contradiction;
             now apply not_elem_of_empty in Hm.
        -- right. exists c. destruct w0 as [k|k|]; try contradiction;
             destruct Hkey as [r ->]; exists r;
             (split; [now left|exact Hx]).
      * now left.
      * right. apply elem_of_cons in Hc' as [->|Hc']; [|inversion Hc'].
        exists c, r. split; assumption.
  - assert (Hle : le_marks sa sb)
      by (eapply mark_task_le_marks; eassumption).
    intros [Hm|Hshare]; [eapply marked_le_marks; eassumption|].
    destruct t; try discriminate; cbn [runTask task_marks] in *.
    + destruct Hshare as (i & v & Hi & Hslot & Hreach).
      apply (frame_task_reaches fuel temp i v sa sb w); [|exact Hreach].
      left. auto.
    + destruct Hshare as (i & v & Hi & Hslot & Hreach).
      apply (frame_task_reaches fuel temp i v sa sb w); [|exact Hreach].
      right. auto.
    + destruct Hshare as (c & r & Hc & Hkey).
      apply bind_Done in Hrun as (classes & sa' & Hread & Hrun).
      inversion Hread; subst classes sa'; clear Hread.
      assert (Hcls : forall c, respects le_marks
                                 (forEach markStaticVar (staticVars c))).
      { intros c0. apply respects_forEach; [apply _|]. intros x.
        apply respects_markStaticVar;
          [apply _|apply le_marks_allows_marking]. }
      destruct (forEach_elem le_marks _ _ sa sb c Hcls Hrun Hc)
        as (s1 & s2 & Hx & _ & Hl2).
      assert (Hvar : forall x, respects le_marks (markStaticVar x)).
      { intros x. apply respects_markStaticVar;
          [apply _|apply le_marks_allows_marking]. }
      destruct w as [k|k|]; try contradiction.
      * destruct (forEach_elem le_marks _ _ s1 s2 _ Hvar Hx Hkey)
          as (s3 & s4 & Hy & _ & Hl4).
        eapply marked_le_marks; [exact Hl2|].
        eapply marked_le_marks; [exact Hl4|].
        apply (markStaticVar_marks _ _ _ (JObject k) Hy). right. eauto.
      * destruct (forEach_elem le_marks _ _ s1 s2 _ Hvar Hx Hkey)
          as (s3 & s4 & Hy & _ & Hl4).
        eapply marked_le_marks; [exact Hl2|].
        eapply marked_le_marks; [exact Hl4|].
        apply (markStaticVar_marks _ _ _ (JArray k) Hy). right. eauto.
Qed.

(** ** What a collecting cycle marks and keeps *)

(** Waiting on a future whose marking task is queued: the task runs on
    the state with the task taken out of the queue, and adds marks only. *)
Lemma get_mark_task fuel id t s s1 :
  NoDup (queue s).*1 -> (id, t) ∈ queue s -> is_mark_task t = true ->
  get fuel id s = Done tt s1 ->
  exists sb,
    runTask fuel t
      (set_taskQueue (filter (fun e => e.1 <> id) (queue s)) s) = Done tt sb /\
    s1 = log (EvGet id) sb /\
    unmarked sb
    = unmarked (set_taskQueue (filter (fun e => e.1 <> id) (queue s)) s).
Proof.
  intros Hq Hin Hmark Hget.
  rewrite (get_pending _ _ _ _ Hq Hin) in Hget.
  destruct (work (pool s)); [|discriminate].
  apply bind_Done in Hget as ([] & sb & Htask & Hemit).
  inversion Hemit; subst s1. exists sb. split; [exact Htask|].
  split; [reflexivity|].
  exact (mark_task_keeps_unmarked fuel t Hmark _ _ _ Htask).
Qed.

Lemma gets_marks_from fuel ids :
  forall s s',
    NoDup (queue s).*1 -> NoDup ids ->
    (forall id, id ∈ ids ->
                exists t, (id, t) ∈ queue s /\ is_mark_task t = true) ->
    forEach (get fuel) ids s = Done tt s' ->
    forall w, marked s' w ->
      marked s w \/
      exists id t, id ∈ ids /\ (id, t) ∈ queue s /\
                   task_marks (jheap s) (classTable s) t w.
Proof.
  induction ids as [|id ids IH]; intros s s' Hq Hids Hpend Hrun w Hw.
  - inversion Hrun; subst. now left.
  - simpl in Hrun. apply bind_Done in Hrun as ([] & s1 & Hget & Hrest).
    destruct (Hpend id) as (t & Hin & Hmark); [left|].
    destruct (get_mark_task _ _ _ _ _ Hq Hin Hmark Hget)
      as (sb & Htask & -> & Hsame).
    set (s0 := set_taskQueue _ s) in *.
    assert (Hqb : queue sb = filter (fun e => e.1 <> id) (queue s))
      by exact (f_equal queue Hsame).
    assert (Hhb : jheap sb = jheap s) by exact (f_equal jheap Hsame).
    assert (Hcb : classTable sb = classTable s)
      by exact (f_equal classTable Hsame).
    apply NoDup_cons in Hids as [Hid Hids].
    destruct (IH (log (EvGet id) sb) s') with (w := w)
      as [Hm|(id' & t' & Hin' & Hq' & Htm)]; try assumption.
    { change (queue (log (EvGet id) sb)) with (queue sb). rewrite Hqb.
      now apply NoDup_filter_ids. }
    { intros id' Hin'. destruct (Hpend id') as (t' & Hin'' & Hm');
        [now right|].
      exists t'. split; [|exact Hm'].
      change (queue (log (EvGet id) sb)) with (queue sb). rewrite Hqb.
      apply list_elem_of_filter. split; [|exact Hin'']. simpl. congruence. }
    + change (marked sb w) in Hm.
      apply (mark_task_marks_exactly fuel t s0 sb w Hmark Htask) in Hm
        as [Hm|Htm]; [now left|].
      right. exists id, t. split; [now left|]. split; [exact Hin|exact Htm].
    + right. exists id', t'. split; [now right|].
      change (queue (log (EvGet id) sb)) with (queue sb) in Hq'.
      rewrite Hqb in Hq'. apply list_elem_of_filter in Hq' as [_ Hq'].
      split; [exact Hq'|].
      change (jheap (log (EvGet id) sb)) with (jheap sb) in Htm.
      change (classTable (log (EvGet id) sb)) with (classTable sb) in Htm.
      now rewrite Hhb, Hcb in Htm.
Qed.

Lemma frame_queue_tasks n top e :
  e ∈ frame_queue n top ->
  exists fr, fr ∈ top /\ (e.2 = StackMarkTask fr \/ e.2 = LocalMarkTask fr).
Proof.
  revert n. induction top as [|fr next IH]; intros n H; simpl in H.
  - inversion H.
  - apply elem_of_cons in H as [->|H]; [exists fr; split; [now left|now left]|].
    apply elem_of_cons in H as [->|H];
      [exists fr; split; [now left|now right]|].
    destruct (IH _ H) as (fr' & Hin & Ht). exists fr'. split; [now right|auto].
Qed.

(** What the marking phase of a cycle adds to the mark sets: the closure
    of the roots in the frames and the keys of the static fields. *)
Definition cycle_roots (s : Runtime) (top : list Frame) (w : JType) : Prop :=
  (exists v, frame_root top v /\ reachable (jheap s) v w) \/
  static_key (classTable s) w.

Lemma mark_queue_roots n top s w :
  (exists e, e ∈ mark_queue n top /\
             task_marks (jheap s) (classTable s) e.2 w) <->
  cycle_roots s top w.
Proof.
  split.
  - intros (e & He & Htm). unfold mark_queue in He.
    apply elem_of_app in He as [He|He].
    + destruct (frame_queue_tasks _ _ _ He) as (fr & Hfr & [E|E]);
        rewrite E in Htm; destruct Htm as (i & v & Hi & Hslot & Hr);
        left; exists v; (split; [|exact Hr]); exists fr, i;
        (split; [exact Hfr|]); [left|right]; auto.
    + apply list_elem_of_singleton in He as ->. now right.
  - intros [(v & (fr & i & Hfr & Hslot) & Hr)|Hkey].
    + destruct (frame_queue_covers n top fr Hfr) as [Hst Hlo].
      destruct Hslot as [[Hi Hs]|[Hi Hs]].
      * apply list_elem_of_fmap in Hst as (e & E & He).
        exists e. split; [unfold mark_queue; apply elem_of_app; now left|].
        rewrite <- E. exists i, v. auto.
      * apply list_elem_of_fmap in Hlo as (e & E & He).
        exists e. split; [unfold mark_queue; apply elem_of_app; now left|].
        rewrite <- E. exists i, v. auto.
    + exists ((n + 2 * length top)%nat, StaticFieldsTask).
      split; [|exact Hkey]. unfold mark_queue. apply elem_of_app. right.
      now left.
Qed.

(** After the marking phase, exactly what was marked before and the
    roots' share is marked. *)
Lemma markPhase_marks_exactly fuel s s1 top w :
  queue s = [] -> frames (collector s) = Some top ->
  markPhase fuel s = Done tt s1 ->
  (marked s1 w <-> marked s w \/ cycle_roots s top w).
Proof.
  intros Hq Hfr Hrun. rewrite <- (mark_queue_roots (issued (pool s))).
  destruct (markPhase_spec _ _ _ _ Hq Hfr Hrun) as (_ & Hle & _ & Hall).
  split.
  - intros Hw. rewrite (markPhase_gets _ _ _ Hfr) in Hrun.
    set (n := issued (pool s)) in *.
    set (s3 := submitted (mark_queue n top) s) in *.
    assert (Hq3 : queue s3 = mark_queue n top)
      by (unfold s3, submitted, queue, pool in *; simpl; now rewrite Hq).
    destruct (gets_marks_from fuel (mark_futures n top) s3 s1) with (w := w)
      as [Hm|(id & t & Hid & Hin & Htm)]; try assumption.
    + rewrite Hq3, mark_queue_ids. apply NoDup_seq.
    + rewrite mark_futures_perm, mark_queue_ids. apply NoDup_seq.
    + intros id Hid. rewrite mark_futures_perm in Hid.
      apply list_elem_of_fmap in Hid as ([id' t] & -> & Hin).
      exists t. rewrite Hq3. split; [exact Hin|].
      apply (mark_queue_mark_tasks _ _ _ Hin).
    + now left.
    + right. exists (id, t). rewrite Hq3 in Hin. split; [exact Hin|exact Htm].
  - intros [Hm|(e & He & Htm)]; [eapply marked_le_marks; eassumption|].
    destruct (Hall e He) as (sa & sb & Hr & Hh & Hc & Hl).
    eapply marked_le_marks; [exact Hl|].
    apply (mark_task_marks_exactly fuel e.2 sa sb w
             (mark_queue_mark_tasks _ _ _ He) Hr).
    right. now rewrite Hh, Hc.
Qed.

Lemma sweep_erases_unmarked s w :
  ~ marked s w -> entry (swept_heap s) w = None.
Proof.
  destruct w as [o|o|]; simpl; intros Hm; [| |reflexivity];
    rewrite sweepContainer_lookup, bool_decide_false by exact Hm;
    reflexivity.
Qed.

(** The state in which a collecting [gc] that returns calls [sweep], and
    the state it returns. *)
Lemma gc_collecting_Done fuel top policy s s' :
  overMemoryThreshold (collector s) = true -> queue s = [] ->
  gc fuel (Some top) policy s = Done tt s' ->
  exists s1,
    markPhase fuel (gc_start (Some top) s) = Done tt s1 /\
    queue s1 = [] /\ work (pool s1) = true /\ jheap s1 = jheap s /\
    s' = gc_finish (sweep_result s1).
Proof.
  intros Hover Hq Hgc.
  destruct (gc_flag_set_Done _ _ _ _ _ Hover Hgc) as (s2 & Hms & ->).
  unfold markAndSweep in Hms.
  apply bind_Done in Hms as ([] & s1 & Hmark & Hsweep).
  assert (Hq0 : queue (gc_start (Some top) s) = []) by exact Hq.
  destruct (markPhase_done _ _ _ top Hq0 eq_refl Hmark)
    as (Hq1 & Hw1 & Hh1 & _).
  rewrite (sweep_spec _ _ Hq1 Hw1) in Hsweep. inversion Hsweep; subst s2.
  exists s1. repeat split; assumption.
Qed.

(** X8: a collecting cycle that returns keeps exactly the marked heap
    values: the entry of an object or array is unchanged if its offset was
    already in the mark set of its kind when the cycle started, is the
    offset of a heap value in the closure of a stack or local slot, or is
    the key of a static field of its kind; every other entry is erased. *)
Theorem gc_keeps_exactly_the_marked
  (fuel : nat) (top : JavaFrame) (policy : GCPolicy) (s s' : Runtime)
  (w : JType) :
  overMemoryThreshold (collector s) = true -> queue s = [] ->
  gc fuel (Some top) policy s = Done tt s' ->
  (marked s w \/ cycle_roots s top w ->
   entry (jheap s') w = entry (jheap s) w) /\
  (~ (marked s w \/ cycle_roots s top w) -> entry (jheap s') w = None).
Proof.
  intros Hover Hq Hgc.
  destruct (gc_collecting_Done _ _ _ _ _ Hover Hq Hgc)
    as (s1 & Hmark & Hq1 & Hw1 & Hh1 & ->).
  pose proof (markPhase_marks_exactly fuel (gc_start (Some top) s) s1 top w
                Hq eq_refl Hmark) as Hiff.
  change (jheap (gc_finish (sweep_result s1))) with (swept_heap s1).
  split; intros H.
  - rewrite sweep_keeps_marked by (apply Hiff; exact H). now rewrite Hh1.
  - apply sweep_erases_unmarked. intros Hm. apply H, Hiff, Hm.
Qed.

(** X9: a monitor entry gets through a collecting cycle only if its
    offset is marked both as an object and as an array; otherwise it is
    erased, whether or not the heap value it belongs to survives. *)
Theorem gc_keeps_monitor_only_if_marked_twice
  (fuel : nat) (top : JavaFrame) (policy : GCPolicy) (s s' : Runtime)
  (k : N) :
  overMemoryThreshold (collector s) = true -> queue s = [] ->
  gc fuel (Some top) policy s = Done tt s' ->
  let both :=
    (marked s (JObject k) \/ cycle_roots s top (JObject k)) /\
    (marked s (JArray k) \/ cycle_roots s top (JArray k)) in
  (both ->
   monitorContainer (jheap s') !! k = monitorContainer (jheap s) !! k) /\
  (~ both -> monitorContainer (jheap s') !! k = None).
Proof.
  intros Hover Hq Hgc both.
  destruct (gc_collecting_Done _ _ _ _ _ Hover Hq Hgc)
    as (s1 & Hmark & Hq1 & Hw1 & Hh1 & ->).
  pose proof (markPhase_marks_exactly fuel (gc_start (Some top) s) s1 top
                (JObject k) Hq eq_refl Hmark) as Ho.
  pose proof (markPhase_marks_exactly fuel (gc_start (Some top) s) s1 top
                (JArray k) Hq eq_refl Hmark) as Ha.
  change (jheap (gc_finish (sweep_result s1))) with (swept_heap s1).
  unfold swept_heap. cbn [monitorContainer].
  rewrite sweepContainer_lookup. simpl in Ho, Ha.
  split; intros H.
  - destruct H as [H1 H2]. apply Ho in H1. apply Ha in H2.
    rewrite !bool_decide_false by tauto. simpl. now rewrite Hh1.
  - repeat case_bool_decide; simpl; try reflexivity.
    exfalso. apply H. split; [apply Ho|apply Ha]; tauto.
Qed.

(** X10: the collector is idle between cycles: a call of [gc] that
    returns, made with an empty pool queue, a sleeping pool and empty
    mark sets, returns with all of that again and with the
    over-memory-threshold flag clear, whether it collected or not. *)
Theorem gc_returns_idle
  (fuel : nat) (fr : option JavaFrame) (policy : GCPolicy) (s s' : Runtime) :
  queue s = [] -> work (pool s) = false ->
  objectBitmap (collector s) = ∅ -> arrayBitmap (collector s) = ∅ ->
  gc fuel fr policy s = Done tt s' ->
  queue s' = [] /\ work (pool s') = false /\
  objectBitmap (collector s') = ∅ /\ arrayBitmap (collector s') = ∅ /\
  overMemoryThreshold (collector s') = false.
Proof.
  intros Hq Hw Hob Hab Hgc.
  destruct (overMemoryThreshold (collector s)) eqn:Hover.
  - destruct fr as [top|].
    + destruct (gc_collecting_Done _ _ _ _ _ Hover Hq Hgc)
        as (s1 & _ & _ & _ & _ & ->).
      repeat split; reflexivity.
    + rewrite (gc_flag_set _ _ _ _ Hover) in Hgc. discriminate.
  - rewrite (gc_flag_clear _ _ _ _ Hover) in Hgc. inversion Hgc; subst s'.
    repeat split; assumption.
Qed.

(** ** When a cycle returns, and when it cannot *)

Lemma markStaticVar_total x s :
  (x.2 = None /\ markStaticVar x s = Fail BadTypeid) \/
  (x.2 <> None /\ exists s', markStaticVar x s = Done tt s').
Proof.
  destruct x as [k [[r|r|]|]]; unfold markStaticVar; cbn [fst snd];
    [right|right|right|left]; (split; [congruence|]);
    try (eexists; reflexivity); reflexivity.
Qed.

(** A loop whose iterations can fail in one way only fails in that way,
    and does fail if one of them fails from every state. *)
Lemma forEach_fails_with {A} (body : A -> M unit) (f : Failure) l s :
  (forall x s, (exists s', body x s = Done tt s') \/ body x s = Fail f) ->
  (exists x, x ∈ l /\ forall s, body x s = Fail f) ->
  forEach body l s = Fail f.
Proof.
  intros Hb. revert s. induction l as [|y l IH]; intros s (x & Hin & Hx).
  - inversion Hin.
  - simpl. destruct (Hb y s) as [[s1 Hy]|Hy].
    + rewrite (bind_run _ _ _ _ _ Hy).
      apply elem_of_cons in Hin as [->|Hin].
      * rewrite Hx in Hy. discriminate.
      * apply IH. eauto.
    + now apply bind_fail.
Qed.

Lemma forEach_only_fails_with {A} (body : A -> M unit) (f : Failure) l s g :
  (forall x s g, body x s = Fail g -> g = f) ->
  forEach body l s = Fail g -> g = f.
Proof.
  intros Hb H. apply forEach_Fail in H as (l1 & x & l2 & s1 & _ & _ & H).
  eapply Hb, H.
Qed.

(** Some static field of some class is null. *)
Definition null_static (classes : list JavaClass) : Prop :=
  exists c k, c ∈ classes /\ (k, None) ∈ staticVars c.

Lemma class_statics_cases c s :
  (exists s', forEach markStaticVar (staticVars c) s = Done tt s') \/
  forEach markStaticVar (staticVars c) s = Fail BadTypeid.
Proof.
  destruct (forEach markStaticVar (staticVars c) s) as [[] s'|g] eqn:E;
    [left; eauto|right].
  f_equal. apply (forEach_only_fails_with _ BadTypeid _ _ _) in E;
    [exact E|].
  intros x s0 g0 H. destruct (markStaticVar_total x s0) as [[_ H']|[_ [s1 H']]];
    congruence.
Qed.

Lemma static_task_Fail fuel s f :
  runTask fuel StaticFieldsTask s = Fail f ->
  f = BadTypeid /\ null_static (classTable s).
Proof.
  intros H. cbn [runTask] in H.
  rewrite (bind_run (read classTable) _ s (classTable s) s eq_refl) in H.
  apply forEach_Fail in H as (l1 & c & l2 & s1 & Hl & _ & H).
  apply forEach_Fail in H as (m1 & x & m2 & s2 & Hm & _ & H).
  destruct (markStaticVar_total x s2) as [[Hx H']|[_ [s3 H']]];
    [|congruence].
  split; [congruence|].
  destruct x as [k r]. simpl in Hx. subst r.
  exists c, k. split.
  - rewrite Hl. apply elem_of_app. right. now left.
  - rewrite Hm. apply elem_of_app. right. now left.
Qed.

Lemma static_task_null fuel s :
  null_static (classTable s) ->
  runTask fuel StaticFieldsTask s = Fail BadTypeid.
Proof.
  intros (c & k & Hc & Hk). cbn [runTask].
  rewrite (bind_run (read classTable) _ s (classTable s) s eq_refl).
  apply forEach_fails_with.
  - intros c0 s0. apply class_statics_cases.
  - exists c. split; [exact Hc|]. intros s0. apply forEach_fails_with.
    + intros x s1. destruct (markStaticVar_total x s1) as [[_ H]|[_ H]];
        [now right|now left].
    + exists (k, None). split; [exact Hk|]. reflexivity.
Qed.

(** X11: the static-field task inspects the type of every static field
    without a null test: it fails, with [bad_typeid] and in no other way,
    exactly when some static field of some loaded class is null. *)
Theorem static_task_fails_on_null_field (fuel : nat) (s : Runtime) :
  (null_static (classTable s) <->
   runTask fuel StaticFieldsTask s = Fail BadTypeid) /\
  (forall f, runTask fuel StaticFieldsTask s = Fail f -> f = BadTypeid).
Proof.
  split; [split|].
  - apply static_task_null.
  - intros H. apply (static_task_Fail _ _ _ H).
  - intros f H. apply (static_task_Fail _ _ _ H).
Qed.

(** X12: with a null static field a collecting cycle never returns
    normally, whatever the frames hold. *)
Theorem gc_never_returns_with_null_static
  (fuel : nat) (top : JavaFrame) (policy : GCPolicy) (s s' : Runtime) :
  overMemoryThreshold (collector s) = true -> queue s = [] ->
  null_static (classTable s) ->
  gc fuel (Some top) policy s <> Done tt s'.
Proof.
  intros Hover Hq Hnull Hgc.
  destruct (gc_collecting_Done _ _ _ _ _ Hover Hq Hgc)
    as (s1 & Hmark & _).
  destruct (markPhase_spec fuel (gc_start (Some top) s) s1 top Hq eq_refl
              Hmark) as (_ & _ & _ & Hall).
  destruct (Hall ((issued (pool (gc_start (Some top) s))
                   + 2 * length top)%nat, StaticFieldsTask))
    as (sa & sb & Hr & _ & Hc & _).
  { unfold mark_queue. apply elem_of_app. right. now left. }
  cbn [snd] in Hr.
  assert (Hfail : runTask fuel StaticFieldsTask sa = Fail BadTypeid).
  { apply (static_task_null fuel sa). now rewrite Hc. }
  congruence.
Qed.

(** The first [n] slots exist and refer to nothing, or to present heap
    values of rank below [fuel]. *)
Definition slots_ok (h : JavaHeap) (rank : JType -> nat) (fuel : nat)
  (n : Z) (slots : list (option JType)) : bool :=
  (Z.to_nat n <=? length slots)%nat
  && forallb (ref_below h rank fuel) (take (Z.to_nat n) slots).

Definition frame_ok (h : JavaHeap) (rank : JType -> nat) (fuel : nat)
  (fr : Frame) : bool :=
  slots_ok h rank fuel (maxStack fr) (stackSlots fr)
  && slots_ok h rank fuel (maxLocal fr) (localSlots fr).

Definition statics_ok (classes : list JavaClass) : bool :=
  forallb (fun c => forallb (fun x => bool_decide (is_Some x.2))
                            (staticVars c))
          classes.

(** What a cycle needs in order to return: a closed, ranked heap, frames
    whose scanned slots exist and stay below the recursion budget, and no
    null static field. *)
Definition collectable (fuel : nat) (rank : JType -> nat)
  (top : list Frame) (s : Runtime) : bool :=
  closed_ranked (jheap s) rank
  && forallb (frame_ok (jheap s) rank fuel) top
  && statics_ok (classTable s).

Lemma slots_task_returns fuel rank n slots sa :
  closed_ranked (jheap sa) rank = true ->
  slots_ok (jheap sa) rank fuel n slots = true ->
  exists sb,
    forEach (fun i => r ← readSlot slots i ; mark fuel r)
            (seq 0 (Z.to_nat n)) sa = Done tt sb.
Proof.
  intros Hheap Hslots. unfold slots_ok in Hslots.
  apply andb_true_iff in Hslots as [Hlen Hrefs]. apply Nat.leb_le in Hlen.
  apply forEach_returns.
  { intros i. apply respects_bind;
      [apply _|apply respects_readSlot, _|intros; apply mark_keeps_jheap]. }
  intros i s1 Hi Hh. apply elem_of_seq in Hi.
  destruct (lookup_lt_is_Some_2 slots i) as [r Hslot]; [lia|].
  rewrite (bind_run (readSlot slots i) _ s1 r s1)
    by (unfold readSlot; now rewrite Hslot).
  apply (mark_returns fuel rank); rewrite Hh; [exact Hheap|].
  apply (forallb_elem _ _ _ Hrefs). apply list_elem_of_lookup. exists i.
  rewrite lookup_take_lt by lia. exact Hslot.
Qed.

Lemma statics_ok_not_null classes :
  statics_ok classes = true -> ~ null_static classes.
Proof.
  intros Hok (c & k & Hc & Hk). unfold statics_ok in Hok.
  pose proof (forallb_elem _ _ c Hok Hc) as Hvars.
  pose proof (forallb_elem _ _ (k, None) Hvars Hk) as Hx.
  apply bool_decide_eq_true in Hx. destruct Hx as [r Hr]. discriminate.
Qed.

Lemma mark_queue_task_returns fuel rank n top s e sa :
  collectable fuel rank top s = true ->
  e ∈ mark_queue n top ->
  jheap sa = jheap s -> classTable sa = classTable s ->
  exists sb, runTask fuel e.2 sa = Done tt sb.
Proof.
  unfold collectable. rewrite !andb_true_iff.
  intros [[Hheap Hframes] Hstatics] He Hh Hc.
  unfold mark_queue in He. apply elem_of_app in He as [He|He].
  - destruct (frame_queue_tasks _ _ _ He) as (fr & Hfr & Ht).
    pose proof (forallb_elem _ _ fr Hframes Hfr) as Hok.
    unfold frame_ok in Hok. apply andb_true_iff in Hok as [Hst Hlo].
    destruct Ht as [-> | ->]; cbn [runTask];
      apply (slots_task_returns fuel rank); rewrite Hh; assumption.
  - apply list_elem_of_singleton in He as ->. cbn [snd].
    destruct (runTask fuel StaticFieldsTask sa) as [[] sb|f] eqn:E;
      [eauto|].
    apply static_task_Fail in E as [_ Hnull]. rewrite Hc in Hnull.
    destruct (statics_ok_not_null _ Hstatics Hnull).
Qed.

Lemma gets_return fuel ids :
  forall s,
    NoDup (queue s).*1 -> NoDup ids -> work (pool s) = true ->
    (forall id, id ∈ ids ->
                exists t, (id, t) ∈ queue s /\ is_mark_task t = true) ->
    (forall id t sa, (id, t) ∈ queue s ->
       jheap sa = jheap s -> classTable sa = classTable s ->
       exists sb, runTask fuel t sa = Done tt sb) ->
    exists s', forEach (get fuel) ids s = Done tt s'.
Proof.
  induction ids as [|id ids IH]; intros s Hq Hids Hw Hpend Hret.
  - exists s. reflexivity.
  - destruct (Hpend id) as (t & Hin & Hmark); [left|].
    set (s0 := set_taskQueue (filter (fun e => e.1 <> id) (queue s)) s).
    destruct (Hret id t s0 Hin eq_refl eq_refl) as (sb & Htask).
    pose proof (mark_task_keeps_unmarked fuel t Hmark _ _ _ Htask) as Hsame.
    unfold same in Hsame.
    assert (Hget : get fuel id s = Done tt (log (EvGet id) sb)).
    { rewrite (get_pending _ _ _ _ Hq Hin), Hw. fold s0.
      now rewrite (bind_run _ _ _ _ _ Htask). }
    apply NoDup_cons in Hids as [Hid Hids].
    destruct (IH (log (EvGet id) sb)) as (s' & Hrest); try assumption.
    + change (queue (log (EvGet id) sb)) with (queue sb).
      rewrite (f_equal queue Hsame : queue sb = _).
      now apply NoDup_filter_ids.
    + transitivity (work (pool s0)); [|exact Hw].
      exact (f_equal (fun x => work (pool x)) Hsame).
    + intros id' Hin'. destruct (Hpend id') as (t' & Hin'' & Hm');
        [now right|].
      exists t'. split; [|exact Hm'].
      change (queue (log (EvGet id) sb)) with (queue sb).
      rewrite (f_equal queue Hsame : queue sb = _).
      apply list_elem_of_filter. split; [|exact Hin'']. simpl. congruence.
    + intros id' t' sa Hin' Hh Hc.
      change (queue (log (EvGet id) sb)) with (queue sb) in Hin'.
      rewrite (f_equal queue Hsame : queue sb = _) in Hin'.
      apply list_elem_of_filter in Hin' as [_ Hin'].
      apply (Hret id' t' sa Hin').
      * rewrite Hh. exact (f_equal jheap Hsame).
      * rewrite Hc. exact (f_equal classTable Hsame).
    + exists s'. simpl. now rewrite (bind_run _ _ _ _ _ Hget).
Qed.

(** X13: a collecting cycle returns: on a closed, ranked heap, with the
    scanned slots of every frame in storage and below the recursion budget
    and with no null static field, [gc] entered with the flag set and an
    empty pool queue returns normally. *)
Theorem gc_returns_on_collectable_state
  (fuel : nat) (rank : JType -> nat) (top : JavaFrame) (policy : GCPolicy)
  (s : Runtime) :
  overMemoryThreshold (collector s) = true -> queue s = [] ->
  collectable fuel rank top s = true ->
  exists s', gc fuel (Some top) policy s = Done tt s'.
Proof.
  intros Hover Hq Hok. rewrite (gc_flag_set _ _ _ _ Hover).
  set (s0 := gc_start (Some top) s).
  assert (Hq0 : queue s0 = []) by exact Hq.
  assert (Hfr0 : frames (collector s0) = Some top) by reflexivity.
  set (n := issued (pool s0)).
  set (s3 := submitted (mark_queue n top) s0).
  assert (Hq3 : queue s3 = mark_queue n top).
  { change (queue s0 ++ mark_queue n top = mark_queue n top).
    now rewrite Hq0. }
  destruct (gets_return fuel (mark_futures n top) s3) as (s1 & Hgets).
  - rewrite Hq3, mark_queue_ids. apply NoDup_seq.
  - rewrite mark_futures_perm, mark_queue_ids. apply NoDup_seq.
  - reflexivity.
  - intros id Hid. rewrite mark_futures_perm in Hid.
    apply list_elem_of_fmap in Hid as ([id' t] & -> & Hin).
    exists t. rewrite Hq3. split; [exact Hin|].
    apply (mark_queue_mark_tasks _ _ _ Hin).
  - intros id t sa Hin Hh Hc. rewrite Hq3 in Hin.
    apply (mark_queue_task_returns fuel rank n top s (id, t) sa Hok Hin);
      assumption.
  - assert (Hmark : markPhase fuel s0 = Done tt s1)
      by (rewrite (markPhase_gets _ _ _ Hfr0); exact Hgets).
    destruct (markPhase_done _ _ _ _ Hq0 Hfr0 Hmark) as (Hq1 & Hw1 & _).
    unfold markAndSweep. rewrite (bind_run _ _ _ _ _ Hmark).
    rewrite (sweep_spec _ _ Hq1 Hw1). eauto.
Qed.

(** ** Any order of the marking tasks *)

(** X14: the marking tasks of a phase can run in any order: if running
    them one after another in one order returns, running them in any
    other order returns too, with the same state. *)
Theorem marking_order_is_irrelevant
  (fuel : nat) (ts ts' : list Task) (s s' : Runtime) :
  Forall (fun t => is_mark_task t = true) ts ->
  ts ≡ₚ ts' ->
  forEach (runTask fuel) ts s = Done tt s' ->
  forEach (runTask fuel) ts' s = Done tt s'.
Proof.
  intros Hall Hperm. revert s s' Hall.
  induction Hperm as [|x l l' Hperm IH|x y l|l1 l2 l3 H12 IH12 H23 IH23];
    intros s s' Hall Hrun.
  - exact Hrun.
  - simpl in *. apply bind_Done in Hrun as ([] & s1 & Hx & Hrest).
    rewrite (bind_run _ _ _ _ _ Hx). apply IH; [|exact Hrest].
    now inversion Hall.
  - simpl in *. apply bind_Done in Hrun as ([] & s1 & Hy & Hrun).
    apply bind_Done in Hrun as ([] & s2 & Hx & Hrest).
    inversion Hall as [|? ? Hmy Hall']; subst.
    inversion Hall' as [|? ? Hmx _]; subst.
    assert (H : (runTask fuel x ;; runTask fuel y) s = Done tt s2).
    { apply (mark_tasks_commute fuel y x s s2 Hmy Hmx).
      now rewrite (bind_run _ _ _ _ _ Hy). }
    apply bind_Done in H as ([] & s1' & Hx' & Hy').
    rewrite (bind_run _ _ _ _ _ Hx'), (bind_run _ _ _ _ _ Hy').
    exact Hrest.
  - apply IH23; [now rewrite <- H12|]. now apply IH12.
Qed.

(** ** The rendezvous counter *)

Definition sumZ (l : list Z) : Z := foldr Z.add 0 l.

Lemma safepointWait_returns_iff expected arrivals :
  forall cnt,
    is_Some (safepointWait expected cnt arrivals) <->
    exists n, cnt + sumZ (take n arrivals) = expected.
Proof.
  induction arrivals as [|k rest IH]; intros cnt; simpl.
  - destruct (decide (cnt = expected)) as [E|E].
    + split; [intros _; exists 0%nat; simpl; lia|eauto].
    + split; [intros [x H]; discriminate|].
      intros [n H]. rewrite take_nil in H. simpl in H. lia.
  - destruct (decide (cnt = expected)) as [E|E].
    + split; [intros _; exists 0%nat; simpl; lia|eauto].
    + rewrite IH. split.
      * intros [n H]. exists (S n). simpl. lia.
      * intros [[|n] H]; simpl in H; [lia|]. exists n. lia.
Qed.

Lemma safepointWait_past expected arrivals :
  forall cnt,
    expected < cnt -> Forall (fun k => 0 <= k) arrivals ->
    safepointWait expected cnt arrivals = None.
Proof.
  induction arrivals as [|k rest IH]; intros cnt Hlt Hpos; simpl;
    destruct (decide (cnt = expected)); try lia; [reflexivity|].
  inversion Hpos; subst. apply IH; [lia|assumption].
Qed.

Lemma stopTheWorld_unfold arrivals s :
  stopTheWorld arrivals s
  = match safepointWait (threadNum s) (safepointWaitCnt (collector s) + 1)
                        arrivals with
    | Some cnt' =>
        Done tt (with_collector (set_safepointWaitCnt cnt')
                   (with_collector
                      (fun g => set_safepointWaitCnt
                                  (safepointWaitCnt g + 1) g)
                      (log EvStopTheWorld s)))
    | None => Fail Blocked
    end.
Proof.
  unfold stopTheWorld, emit. run_monad.
  destruct (safepointWait _ _ arrivals); reflexivity.
Qed.

(** X15: [stopTheWorld] returns exactly when the rendezvous count, the
    caller's own increment included, reaches the number of active threads
    at one of the caller's wake-ups; it then leaves the count at that
    number and the heap, the mark sets, the flag and the pool as they
    were. *)
Theorem stopTheWorld_returns_iff (arrivals : list Z) (s : Runtime) :
  ((exists s', stopTheWorld arrivals s = Done tt s') <->
   exists n,
     safepointWaitCnt (collector s) + 1 + sumZ (take n arrivals)
     = threadNum s) /\
  (forall s',
      stopTheWorld arrivals s = Done tt s' ->
      safepointWaitCnt (collector s') = threadNum s /\
      jheap s' = jheap s /\
      objectBitmap (collector s') = objectBitmap (collector s) /\
      arrayBitmap (collector s') = arrayBitmap (collector s) /\
      overMemoryThreshold (collector s') = overMemoryThreshold (collector s) /\
      gcThreadPool (collector s') = gcThreadPool (collector s)).
Proof.
  rewrite stopTheWorld_unfold. rewrite <- safepointWait_returns_iff.
  destruct (safepointWait _ _ arrivals) as [cnt'|] eqn:E.
  - split; [split; eauto|].
    intros s' H. inversion H; subst s'.
    apply safepointWait_Some in E. subst cnt'. repeat split.
  - split; [split|intros s' H; discriminate].
    + intros [s' H]. discriminate.
    + intros [x H]. discriminate.
Qed.

(** X16: the rendezvous counter is never reset: once a call of
    [stopTheWorld] has returned, a later call, with no thread leaving the
    count, stays blocked whatever the other threads do. *)
Theorem stopTheWorld_is_single_use
  (arrivals later : list Z) (s s' : Runtime) :
  stopTheWorld arrivals s = Done tt s' ->
  Forall (fun k => 0 <= k) later ->
  stopTheWorld later s' = Fail Blocked.
Proof.
  intros Hfirst Hpos.
  destruct (stopTheWorld_Done _ _ _ Hfirst) as (_ & Hcnt & Hnum).
  rewrite stopTheWorld_unfold, Hcnt, Hnum.
  rewrite safepointWait_past; [reflexivity|lia|exact Hpos].
Qed.

(** ** The worker threads *)

(** Where a worker thread stands: out of its loop, asleep in
    [sleepCnd.wait], still looping when the rounds looked at are over, or
    gone with a failing task. *)
Inductive WorkerState : Type :=
| Exited (s : Runtime)
| Asleep (s : Runtime)
| Looping (s : Runtime)
| Crashed (f : Failure).

(** The end of a round of the loop in [runPendingWork]: the task at the
    front of the queue, if there is one, is popped and run. *)
Definition takeFront (fuel : nat) (s : Runtime) : Outcome unit :=
  match taskQueue (pool s) with
  | [] => Done tt s
  | (_, task) :: q => runTask fuel task (set_taskQueue q s)
  end.

(** [GCThreadPool::runPendingWork], for one worker and at most [rounds]
    rounds of its outer loop.  [done] is the pool's flag of that name; it
    is set by [finalize] only, from another thread, and is given here as
    the value the worker reads at its loop tests. *)
Fixpoint runPendingWork (fuel rounds : nat) (done : bool) (s : Runtime)
  : WorkerState :=
  if done then Exited s
  else match rounds with
       | O => Looping s
       | S rounds' =>
           if work (pool s)
           then match takeFront fuel s with
                | Done _ s' => runPendingWork fuel rounds' done s'
                | Fail f => Crashed f
                end
           else Asleep s
       end.

(** A worker asleep in the inner [while] is notified: it goes on from the
    test of [work], and reads [done] only at its next loop test. *)
Definition wakeUp (fuel rounds : nat) (done : bool) (s : Runtime)
  : WorkerState :=
  if work (pool s)
  then match takeFront fuel s with
       | Done _ s' => runPendingWork fuel rounds done s'
       | Fail f => Crashed f
       end
  else Asleep s.

(** [GCThreadPool::finalize]: the state it leaves and the new value of
    [done]. *)
Definition finalize (s : Runtime) : Runtime * bool :=
  (with_pool (fun p => mkPool true (taskQueue p) (issued p)) s, true).

Lemma runTask_keeps_pool fuel t :
  keeps (fun s => (pool s, trace s)) (runTask fuel t).
Proof.
  apply respects_runTask; try apply _; intro; intros; reflexivity.
Qed.

Lemma set_taskQueue_queue s : set_taskQueue (queue s) s = s.
Proof. destruct s as [h ct [fr fl ob ab cn [w q n]] tn tr]. reflexivity. Qed.

(** A worker that finds [work] set and [done] clear, and only marking
    tasks in the queue, with at least as many rounds as tasks. *)
Lemma worker_drains fuel :
  forall rounds s,
    work (pool s) = true ->
    Forall (fun e => is_mark_task e.2 = true) (queue s) ->
    (length (queue s) <= rounds)%nat ->
    match runPendingWork fuel rounds false s with
    | Looping s' =>
        unmarked s' = unmarked (set_taskQueue [] s) /\
        forall w, marked s' w <->
                  marked s w \/
                  exists e, e ∈ queue s /\
                            task_marks (jheap s) (classTable s) e.2 w
    | Crashed f =>
        exists e sa, e ∈ queue s /\ runTask fuel e.2 sa = Fail f /\
                     jheap sa = jheap s /\ classTable sa = classTable s
    | _ => False
    end.
Proof.
  induction rounds as [|rounds IH]; intros s Hw Hall Hlen.
  - simpl. destruct (queue s) as [|e q] eqn:Hq; [|simpl in Hlen; lia].
    split.
    + rewrite <- Hq. now rewrite set_taskQueue_queue.
    + intros w. split; [now left|].
      intros [Hm|(e & He & _)]; [exact Hm|inversion He].
  - cbn [runPendingWork]. rewrite Hw. unfold takeFront.
    fold (queue s). destruct (queue s) as [|[fut t] q] eqn:Hq.
    + specialize (IH s Hw). rewrite Hq in IH.
      specialize (IH Hall). simpl in IH.
      specialize (IH (Nat.le_0_l _)).
      destruct (runPendingWork fuel rounds false s); exact IH.
    + inversion Hall as [|? ? Hmark Hall']; subst. cbn [snd] in Hmark.
      set (s0 := set_taskQueue q s).
      destruct (runTask fuel t s0) as [[] s1|f] eqn:Htask.
      * pose proof (mark_task_keeps_unmarked fuel t Hmark _ _ _ Htask)
          as Hsame. unfold same in Hsame.
        assert (Hq1 : queue s1 = q) by exact (f_equal queue Hsame).
        assert (Hw1 : work (pool s1) = true)
          by (transitivity (work (pool s0));
              [exact (f_equal (fun x => work (pool x)) Hsame)|exact Hw]).
        assert (Hh1 : jheap s1 = jheap s) by exact (f_equal jheap Hsame).
        assert (Hc1 : classTable s1 = classTable s)
          by exact (f_equal classTable Hsame).
        specialize (IH s1 Hw1). rewrite Hq1 in IH.
        specialize (IH Hall'). simpl in Hlen.
        specialize (IH ltac:(lia)).
        destruct (runPendingWork fuel rounds false s1) as [| |s'|f];
          try exact IH.
        -- destruct IH as [Hun Hmarks]. split.
           ++ rewrite Hun.
              change (unmarked (set_taskQueue [] s1))
                with (set_taskQueue [] (unmarked s1)).
              rewrite Hsame. reflexivity.
           ++ intros w. rewrite Hmarks.
              rewrite (mark_task_marks_exactly fuel t s0 s1 w Hmark Htask).
              change (marked s0 w) with (marked s w).
              change (jheap s0) with (jheap s).
              change (classTable s0) with (classTable s).
              rewrite Hh1, Hc1. split.
              ** intros [[Hm|Ht]|(e & He & Ht)]; [now left| |].
                 --- right. exists (fut, t). split; [now left|exact Ht].
                 --- right. exists e. split; [now right|exact Ht].
              ** intros [Hm|(e & He & Ht)]; [left; now left|].
                 apply elem_of_cons in He as [->|He].
                 --- left. now right.
                 --- right. exists e. split; assumption.
        -- destruct IH as (e & sa & He & Hf & Hh & Hc).
           exists e, sa. split; [now right|]. split; [exact Hf|].
           split; congruence.
      * exists (fut, t), s0. split; [now left|]. repeat split. exact Htask.
Qed.

(** Whether [mark] returns depends on the heap only. *)
Lemma mark_returns_alike fuel :
  forall r sa sb sa',
    mark fuel r sa = Done tt sb -> jheap sa' = jheap sa ->
    exists sb', mark fuel r sa' = Done tt sb'.
Proof.
  assert (Hmark : forall fuel r, respects marking_step (mark fuel r))
    by (intros; apply respects_mark;
        [apply _|apply marking_step_allows_marking]).
  induction fuel as [|fuel IH]; intros [[o|o|]|] sa sb sa' Hrun Hh;
    try discriminate; try (exists sa'; reflexivity).
  - rewrite mark_object in Hrun.
    apply bind_Done in Hrun as ([] & s1 & Hins & Hrun).
    apply bind_Done in Hrun as (fields & s1' & Hf & Hrun).
    apply getFields_Done in Hf as [-> Ho].
    assert (Hh1 : jheap s1 = jheap sa)
      by (eapply insertObjectBitmap_jheap, Hins).
    rewrite Hh1 in Ho. rewrite mark_object.
    rewrite (bind_run (insertObjectBitmap o) _ sa' tt _ eq_refl).
    erewrite (bind_run (getFields o));
      [|unfold getFields;
        change (jheap (with_collector _ sa')) with (jheap sa');
        rewrite Hh, Ho; reflexivity].
    apply forEach_returns; [intros x; apply mark_keeps_jheap|].
    intros x s2 Hx Hs2.
    destruct (forEach_elem marking_step (mark fuel) fields s1 sb x
                (Hmark fuel) Hrun Hx) as (sc & sd & Hy & (Hhc & _ & _) & _).
    apply (IH x sc sd s2 Hy). rewrite Hs2, Hhc, Hh1.
    exact Hh.
  - rewrite mark_array in Hrun.
    apply bind_Done in Hrun as ([] & s1 & Hins & Hrun).
    apply bind_Done in Hrun as ([len elems] & s1' & Hf & Hrun).
    apply getElements_Done in Hf as [-> Ho]. cbn [fst snd] in Hrun.
    assert (Hh1 : jheap s1 = jheap sa)
      by (eapply insertArrayBitmap_jheap, Hins).
    rewrite Hh1 in Ho. rewrite mark_array.
    rewrite (bind_run (insertArrayBitmap o) _ sa' tt _ eq_refl).
    erewrite (bind_run (getElements o));
      [|unfold getElements;
        change (jheap (with_collector _ sa')) with (jheap sa');
        rewrite Hh, Ho; reflexivity].
    cbn [fst snd].
    assert (Hbody : forall i,
               respects marking_step (r ← readSlot elems i ; mark fuel r)).
    { intros j. apply respects_bind;
        [apply _|apply respects_readSlot, _|intros r; apply Hmark]. }
    apply forEach_returns.
    { intros i. apply respects_bind;
        [apply _|apply respects_readSlot, _|intros; apply mark_keeps_jheap]. }
    intros i s2 Hi Hs2.
    destruct (forEach_elem marking_step _ _ s1 sb i Hbody Hrun Hi)
      as (sc & sd & Hy & (Hhc & _ & _) & _).
    apply bind_Done in Hy as (r & sc' & Hr & Hy).
    apply readSlot_Done in Hr as [-> Hr].
    rewrite (bind_run (readSlot elems i) _ s2 r s2)
      by (unfold readSlot; now rewrite Hr).
    apply (IH r sc sd s2 Hy). rewrite Hs2, Hhc, Hh1. exact Hh.
Qed.

(** Whether a marking task returns depends on the heap and the class
    table only. *)
Lemma mark_task_returns_alike fuel t sa sb sa' :
  is_mark_task t = true ->
  runTask fuel t sa = Done tt sb ->
  jheap sa' = jheap sa -> classTable sa' = classTable sa ->
  exists sb', runTask fuel t sa' = Done tt sb'.
Proof.
  assert (Hmark : forall r, respects marking_step (mark fuel r))
    by (intros; apply respects_mark;
        [apply _|apply marking_step_allows_marking]).
  assert (Hslots : forall slots n,
             forEach (fun i => r ← readSlot slots i ; mark fuel r)
                     (seq 0 n) sa = Done tt sb ->
             jheap sa' = jheap sa ->
             exists sb',
               forEach (fun i => r ← readSlot slots i ; mark fuel r)
                       (seq 0 n) sa' = Done tt sb').
  { intros slots n Hrun Hh.
    assert (Hbody : forall i,
               respects marking_step (r ← readSlot slots i ; mark fuel r)).
    { intros j. apply respects_bind;
        [apply _|apply respects_readSlot, _|intros r; apply Hmark]. }
    apply forEach_returns.
    { intros i. apply respects_bind;
        [apply _|apply respects_readSlot, _|intros; apply mark_keeps_jheap]. }
    intros i s2 Hi Hs2.
    destruct (forEach_elem marking_step _ _ sa sb i Hbody Hrun Hi)
      as (sc & sd & Hy & (Hhc & _ & _) & _).
    apply bind_Done in Hy as (r & sc' & Hr & Hy).
    apply readSlot_Done in Hr as [-> Hr].
    rewrite (bind_run (readSlot slots i) _ s2 r s2)
      by (unfold readSlot; now rewrite Hr).
    apply (mark_returns_alike fuel r sc sd s2 Hy). congruence. }
  intros Ht Hrun Hh Hc. destruct t; try discriminate; cbn [runTask] in *.
  - now apply Hslots.
  - now apply Hslots.
  - destruct (runTask fuel StaticFieldsTask sa') as [[] sb'|f] eqn:E;
      [cbn [runTask] in E; eauto|].
    apply static_task_Fail in E as [_ Hnull]. rewrite Hc in Hnull.
    apply (static_task_null fuel) in Hnull. cbn [runTask] in Hnull.
    congruence.
Qed.

(** X17: the marks of a cycle do not depend on who runs the marking
    tasks, or when: if the marking phase returns, with each task run when
    its future is awaited, then a worker that drains the same queue from
    its front, in [runPendingWork], runs every task without failure, is
    still in its loop afterwards, and has marked exactly the same heap
    values; and it has changed nothing but the mark sets and the queue. *)
Theorem fifo_worker_marks_like_the_awaits
  (fuel rounds : nat) (s s1 : Runtime) (top : list Frame) :
  queue s = [] -> work (pool s) = true ->
  frames (collector s) = Some top ->
  markPhase fuel s = Done tt s1 ->
  (S (2 * length top) <= rounds)%nat ->
  exists sw,
    runPendingWork fuel rounds false
      (submitted (mark_queue (issued (pool s)) top) s) = Looping sw /\
    unmarked sw
    = unmarked (set_taskQueue []
                  (submitted (mark_queue (issued (pool s)) top) s)) /\
    forall w, marked sw w <-> marked s1 w.
Proof.
  intros Hq Hw Hfr Hrun Hrounds.
  set (n := issued (pool s)).
  set (s3 := submitted (mark_queue n top) s).
  assert (Hq3 : queue s3 = mark_queue n top).
  { change (queue s ++ mark_queue n top = mark_queue n top). now rewrite Hq. }
  destruct (markPhase_spec _ _ _ _ Hq Hfr Hrun) as (_ & _ & _ & Hall).
  pose proof (worker_drains fuel rounds s3) as Hdrain.
  rewrite Hq3 in Hdrain.
  specialize (Hdrain Hw).
  assert (Hmarks : Forall (fun e => is_mark_task e.2 = true)
                          (mark_queue n top)).
  { apply Forall_forall. intros e He.
    apply (mark_queue_mark_tasks _ _ _ He). }
  specialize (Hdrain Hmarks).
  assert (Hlen : (length (mark_queue n top) <= rounds)%nat).
  { unfold mark_queue. rewrite length_app, length_frame_queue. simpl. lia. }
  specialize (Hdrain Hlen).
  destruct (runPendingWork fuel rounds false s3) as [| |sw|f];
    try contradiction.
  - destruct Hdrain as [Hun Hiff]. exists sw.
    split; [reflexivity|]. split; [exact Hun|].
    intros w. rewrite Hiff.
    rewrite (markPhase_marks_exactly fuel s s1 top w Hq Hfr Hrun).
    change (marked s3 w) with (marked s w).
    change (jheap s3) with (jheap s).
    change (classTable s3) with (classTable s).
    now rewrite mark_queue_roots.
  - exfalso. destruct Hdrain as (e & sa & He & Hfail & Hh & Hc).
    destruct (Hall e He) as (sc & sd & Hr & Hhc & Hcc & _).
    destruct (mark_task_returns_alike fuel e.2 sc sd sa
                (mark_queue_mark_tasks _ _ _ He) Hr) as (sb' & Hok).
    + rewrite Hh. symmetry. exact Hhc.
    + rewrite Hc. symmetry. exact Hcc.
    + congruence.
Qed.

(** X18: [finalize] wakes the workers up to leave, not to drain the
    queue: a worker at its loop test exits at once, and a worker woken
    from its wait pops and runs the task at the front of the queue, if
    there is one, and exits; the tasks behind the front stay in the
    queue, and [finalize] itself removes none. *)
Theorem finalize_does_not_drain (fuel rounds : nat) (s : Runtime) :
  let sf := (finalize s).1 in
  let done := (finalize s).2 in
  queue sf = queue s /\
  runPendingWork fuel rounds done sf = Exited sf /\
  forall s',
    takeFront fuel sf = Done tt s' ->
    wakeUp fuel rounds done sf = Exited s' /\ queue s' = tail (queue s).
Proof.
  cbn zeta. split; [reflexivity|]. split; [destruct rounds; reflexivity|].
  intros s' Hfront. unfold wakeUp.
  change (work (pool (finalize s).1)) with true. cbn iota.
  rewrite Hfront. split; [destruct rounds; reflexivity|].
  unfold takeFront in Hfront.
  change (taskQueue (pool (finalize s).1)) with (queue s) in Hfront.
  destruct (queue s) as [|[fut t] q] eqn:Hqs.
  - inversion Hfront; subst s'. exact Hqs.
  - pose proof (runTask_keeps_pool fuel t _ _ _ Hfront) as Hsame.
    unfold same in Hsame. inversion Hsame as [[Hpool Htrace]].
    unfold queue. rewrite Hpool. reflexivity.
Qed.

(** ** Instances of the further properties *)

Definition chain_rank (v : JType) : nat :=
  match v with
  | JObject 1 => 3
  | JObject 2 => 2
  | JArray 3 => 1
  | _ => 0
  end.

Definition chain_runtime_marked : Runtime :=
  outcome_state (mark 4 (Some (JObject 1)) (chain_runtime true))
                (chain_runtime true).

(** Objects 1 and 2 refer to each other. *)
Definition cyclic_runtime : Runtime :=
  mkRuntime
    (mkJavaHeap {[ 1%N := [Some (JObject 2)]; 2%N := [Some (JObject 1)] ]}
                ∅ ∅)
    [] (idle_collector true) 1 [].

(** The one static field of the one class is null. *)
Definition null_static_runtime : Runtime :=
  mkRuntime (mkJavaHeap ∅ ∅ ∅) [mkJavaClass [(0%N, None)]]
            (idle_collector true) 1 [].

Definition chain_runtime_after_marking : Runtime :=
  outcome_state (markPhase 4 chain_runtime_marking) chain_runtime_marking.

Lemma gc_retains_frame_reachable_witness :
  present (jheap (chain_runtime true)) (JObject 4) /\
  entry (jheap chain_runtime_collected) (JObject 4)
  = entry (jheap (chain_runtime true)) (JObject 4).
Proof.
  apply (gc_retains_frame_reachable 4 chain_frames GC_MARK_AND_SWEEP
           (chain_runtime true) chain_runtime_collected (JObject 1)).
  - reflexivity.
  - reflexivity.
  - vm_compute. reflexivity.
  - exists (mkFrame 2 [None; Some (JObject 1)] 1 [None]), 1%nat.
    split; [apply elem_of_cons; now left|].
    left. split; [vm_compute; lia|reflexivity].
  - eapply rtc_l.
    { eapply points_to_field; [vm_compute; reflexivity|].
      apply elem_of_cons. now left. }
    eapply rtc_l.
    { eapply points_to_field; [vm_compute; reflexivity|].
      apply elem_of_cons. now left. }
    eapply rtc_l; [|apply rtc_refl].
    eapply (points_to_element _ 3%N 2%N _ 1%nat);
      [vm_compute; reflexivity|vm_compute; lia|reflexivity].
Defined.

Lemma mark_marks_exactly_closure_witness :
  unmarked chain_runtime_marked = unmarked (chain_runtime true) /\
  forall w,
    marked chain_runtime_marked w <->
    marked (chain_runtime true) w \/
    reachable (jheap (chain_runtime true)) (JObject 1) w.
Proof.
  apply (mark_marks_exactly_closure 4 (JObject 1) (chain_runtime true)
           chain_runtime_marked).
  vm_compute. reflexivity.
Defined.

Lemma mark_again_changes_nothing_witness :
  mark 4 (Some (JObject 1)) chain_runtime_marked
  = Done tt chain_runtime_marked.
Proof.
  apply (mark_again_changes_nothing 4 (Some (JObject 1)) (chain_runtime true)
           chain_runtime_marked).
  vm_compute. reflexivity.
Defined.

Lemma mark_never_returns_on_cycle_witness :
  mark 5 (Some (JObject 1)) cyclic_runtime <> Done tt cyclic_runtime.
Proof.
  apply (mark_never_returns_on_cycle 5 (JObject 1) cyclic_runtime
           cyclic_runtime).
  exists (JObject 2). split.
  - eapply points_to_field; [vm_compute; reflexivity|].
    apply elem_of_cons. now left.
  - eapply rtc_l; [|apply rtc_refl].
    eapply points_to_field; [vm_compute; reflexivity|].
    apply elem_of_cons. now left.
Defined.

Lemma mark_returns_on_ranked_heap_witness :
  exists s', mark 4 (Some (JObject 1)) (chain_runtime true) = Done tt s'.
Proof.
  apply (mark_returns_on_ranked_heap 4 chain_rank (JObject 1)
           (chain_runtime true)).
  - vm_compute. reflexivity.
  - eexists. vm_compute. reflexivity.
  - simpl. lia.
Defined.

Lemma sweep_keeps_exactly_the_marked_witness :
  exists s',
    sweep 0 monitor_runtime = Done tt s' /\
    (forall k,
        objectContainer (jheap s') !! k
        = if bool_decide (k ∈ objectBitmap (collector monitor_runtime))
          then objectContainer (jheap monitor_runtime) !! k else None) /\
    (forall k,
        arrayContainer (jheap s') !! k
        = if bool_decide (k ∈ arrayBitmap (collector monitor_runtime))
          then arrayContainer (jheap monitor_runtime) !! k else None) /\
    (forall k,
        monitorContainer (jheap s') !! k
        = if bool_decide (k ∈ objectBitmap (collector monitor_runtime))
             && bool_decide (k ∈ arrayBitmap (collector monitor_runtime))
          then monitorContainer (jheap monitor_runtime) !! k else None) /\
    objectBitmap (collector s') = objectBitmap (collector monitor_runtime) /\
    arrayBitmap (collector s') = arrayBitmap (collector monitor_runtime).
Proof.
  apply (sweep_keeps_exactly_the_marked 0 monitor_runtime); reflexivity.
Defined.

Lemma sweep_blocks_on_sleeping_pool_witness :
  sweep 0 (chain_runtime true) = Fail Blocked.
Proof.
  apply (sweep_blocks_on_sleeping_pool 0 (chain_runtime true)); reflexivity.
Defined.

Lemma gc_keeps_exactly_the_marked_witness :
  (marked (chain_runtime true) (JObject 7) \/
   cycle_roots (chain_runtime true) chain_frames (JObject 7) ->
   entry (jheap chain_runtime_collected) (JObject 7)
   = entry (jheap (chain_runtime true)) (JObject 7)) /\
  (~ (marked (chain_runtime true) (JObject 7) \/
      cycle_roots (chain_runtime true) chain_frames (JObject 7)) ->
   entry (jheap chain_runtime_collected) (JObject 7) = None).
Proof.
  apply (gc_keeps_exactly_the_marked 4 chain_frames GC_MARK_AND_SWEEP
           (chain_runtime true) chain_runtime_collected (JObject 7)).
  - reflexivity.
  - reflexivity.
  - vm_compute. reflexivity.
Defined.

Lemma gc_keeps_monitor_only_if_marked_twice_witness :
  ((marked (chain_runtime true) (JObject 1) \/
    cycle_roots (chain_runtime true) chain_frames (JObject 1)) /\
   (marked (chain_runtime true) (JArray 1) \/
    cycle_roots (chain_runtime true) chain_frames (JArray 1)) ->
   monitorContainer (jheap chain_runtime_collected) !! 1%N
   = monitorContainer (jheap (chain_runtime true)) !! 1%N) /\
  (~ ((marked (chain_runtime true) (JObject 1) \/
       cycle_roots (chain_runtime true) chain_frames (JObject 1)) /\
      (marked (chain_runtime true) (JArray 1) \/
       cycle_roots (chain_runtime true) chain_frames (JArray 1))) ->
   monitorContainer (jheap chain_runtime_collected) !! 1%N = None).
Proof.
  apply (gc_keeps_monitor_only_if_marked_twice 4 chain_frames
           GC_MARK_AND_SWEEP (chain_runtime true) chain_runtime_collected 1%N).
  - reflexivity.
  - reflexivity.
  - vm_compute. reflexivity.
Defined.

Lemma gc_returns_idle_witness :
  queue chain_runtime_collected = [] /\
  work (pool chain_runtime_collected) = false /\
  objectBitmap (collector chain_runtime_collected) = ∅ /\
  arrayBitmap (collector chain_runtime_collected) = ∅ /\
  overMemoryThreshold (collector chain_runtime_collected) = false.
Proof.
  apply (gc_returns_idle 4 (Some chain_frames) GC_MARK_AND_SWEEP
           (chain_runtime true) chain_runtime_collected).
  - reflexivity.
  - reflexivity.
  - reflexivity.
  - reflexivity.
  - vm_compute. reflexivity.
Defined.

Lemma static_task_fails_on_null_field_witness :
  runTask 4 StaticFieldsTask null_static_runtime = Fail BadTypeid.
Proof.
  apply (proj1 (static_task_fails_on_null_field 4 null_static_runtime)).
  exists (mkJavaClass [(0%N, None)]), 0%N.
  split; apply elem_of_cons; now left.
Defined.

Lemma gc_never_returns_with_null_static_witness :
  gc 4 (Some []) GC_MARK_AND_SWEEP null_static_runtime
  <> Done tt null_static_runtime.
Proof.
  apply (gc_never_returns_with_null_static 4 [] GC_MARK_AND_SWEEP
           null_static_runtime null_static_runtime).
  - reflexivity.
  - reflexivity.
  - exists (mkJavaClass [(0%N, None)]), 0%N.
    split; apply elem_of_cons; now left.
Defined.

Lemma gc_returns_on_collectable_state_witness :
  exists s',
    gc 4 (Some chain_frames) GC_MARK_AND_SWEEP (chain_runtime true)
    = Done tt s'.
Proof.
  apply (gc_returns_on_collectable_state 4 chain_rank chain_frames
           GC_MARK_AND_SWEEP (chain_runtime true)).
  - reflexivity.
  - reflexivity.
  - vm_compute. reflexivity.
Defined.

Lemma marking_order_is_irrelevant_witness :
  forEach (runTask 4)
          [StaticFieldsTask;
           StackMarkTask (mkFrame 2 [None; Some (JObject 1)] 1 [None])]
          (chain_runtime true)
  = Done tt chain_runtime_marked.
Proof.
  apply (marking_order_is_irrelevant 4
           [StackMarkTask (mkFrame 2 [None; Some (JObject 1)] 1 [None]);
            StaticFieldsTask]).
  - repeat constructor.
  - apply perm_swap.
  - vm_compute. reflexivity.
Defined.

Lemma stopTheWorld_returns_iff_witness :
  safepointWaitCnt (collector chain_runtime_rendezvous)
  = threadNum chain_runtime_collected /\
  jheap chain_runtime_rendezvous = jheap chain_runtime_collected /\
  objectBitmap (collector chain_runtime_rendezvous)
  = objectBitmap (collector chain_runtime_collected) /\
  arrayBitmap (collector chain_runtime_rendezvous)
  = arrayBitmap (collector chain_runtime_collected) /\
  overMemoryThreshold (collector chain_runtime_rendezvous)
  = overMemoryThreshold (collector chain_runtime_collected) /\
  gcThreadPool (collector chain_runtime_rendezvous)
  = gcThreadPool (collector chain_runtime_collected).
Proof.
  apply (proj2 (stopTheWorld_returns_iff [1] chain_runtime_collected)).
  vm_compute. reflexivity.
Defined.

Lemma stopTheWorld_is_single_use_witness :
  stopTheWorld [1; 0] chain_runtime_rendezvous = Fail Blocked.
Proof.
  apply (stopTheWorld_is_single_use [1] [1; 0] chain_runtime_collected
           chain_runtime_rendezvous).
  - vm_compute. reflexivity.
  - repeat constructor; lia.
Defined.

Lemma fifo_worker_marks_like_the_awaits_witness :
  exists sw,
    runPendingWork 4 3 false
      (submitted (mark_queue (issued (pool chain_runtime_marking))
                             chain_frames)
                 chain_runtime_marking) = Looping sw /\
    unmarked sw
    = unmarked
        (set_taskQueue []
           (submitted (mark_queue (issued (pool chain_runtime_marking))
                                  chain_frames)
                      chain_runtime_marking)) /\
    forall w, marked sw w <-> marked chain_runtime_after_marking w.
Proof.
  apply (fifo_worker_marks_like_the_awaits 4 3 chain_runtime_marking
           chain_runtime_after_marking chain_frames).
  - reflexivity.
  - reflexivity.
  - reflexivity.
  - vm_compute. reflexivity.
  - simpl. lia.
Defined.

(** The pool with the static-field task at the front of its queue and a
    sweep task behind it. *)
Definition queued_runtime : Runtime :=
  submitted [(0%nat, StaticFieldsTask); (1%nat, ObjectSweepTask)]
            (chain_runtime true).

Lemma finalize_does_not_drain_witness :
  wakeUp 4 3 (finalize queued_runtime).2 (finalize queued_runtime).1
  = Exited (outcome_state (takeFront 4 (finalize queued_runtime).1)
                          queued_runtime) /\
  queue (outcome_state (takeFront 4 (finalize queued_runtime).1)
                       queued_runtime)
  = tail (queue queued_runtime).
Proof.
  apply (proj2 (proj2 (finalize_does_not_drain 4 3 queued_runtime))).
  vm_compute. reflexivity.
Defined.
